(** * Neural local search for pickup-and-delivery tours: the decoder step
      and the positional state encoder of [nets/graph_layers.py]

    The development follows the source file:
    - [Tour]: a tour as a successor array, [argsort] (the predecessor view)
      and the walk of [EmbeddingNet._position_embedding];
    - [PositionalState]: the visit-index / stack / top-2 simulation;
    - [Shapes]: tensor shapes under [squeeze()];
    - [Decoder]: one step of [NNSDecoder.forward], per batch;
    - [DecoderFacts]: how calls of the step relate to each other, and the
      random reinsertion policy.

    Tensors of integers are lists of [nat]; tensors of floats are lists of
    [Q].  One batch instance is one list; a batch is a list of instances. *)

From Stdlib Require Import QArith Qround Lqa.
From stdpp Require Import base tactics option list sorting strings.

Local Open Scope nat_scope.

(* ===================================================================== *)
(** ** Tours: successor arrays, gather and argsort *)
(* ===================================================================== *)

Module Tour.

(** [t.gather(1, idx)] on one instance: [out[i] = t[idx[i]]].  An index
    outside the tensor raises, here [None]. *)
Definition gather {A} (t : list A) (idx : list nat) : option (list A) :=
  mapM (fun i => t !! i) idx.

(** The pairs [(i, solution[i])]. *)
Definition indexed {A} (l : list A) : list (nat * A) :=
  imap (fun i v => (i, v)) l.

(** Order of the sort keys: the values, ascending. *)
Definition key_le (p q : nat * nat) : Prop := p.2 <= q.2.

#[global] Instance key_le_dec p q : Decision (key_le p q).
Proof. unfold key_le. apply _. Defined.

(** [solution.argsort()]: the indices that sort the values ascending. *)
Definition argsort (l : list nat) : list nat :=
  (merge_sort key_le (indexed l)).*1.

(** A successor array is a permutation of the node ids [0..L-1]. *)
Definition is_perm (solution : list nat) : Prop :=
  solution ≡ₚ seq 0 (length solution).

(** Successor of a node, and the k-th successor of the depot. *)
Definition succ_of (solution : list nat) (i : nat) : nat :=
  default 0 (solution !! i).

Fixpoint orbit (solution : list nat) (k : nat) : nat :=
  match k with
  | 0 => 0
  | S k' => succ_of solution (orbit solution k')
  end.

(** The tour is one cycle through every node: a permutation in which every
    node is reached from the depot by following successors. *)
Definition single_cycle (solution : list nat) : Prop :=
  is_perm solution /\
  forall j, j < length solution -> exists k, orbit solution k = j.

(** The nodes in visiting order, starting from the depot's successor. *)
Definition walk (solution : list nat) : list nat :=
  map (fun i => orbit solution (S i)) (seq 0 (length solution)).

(* --------------------------------------------------------------------- *)
(** *** Facts about [indexed] and [argsort] *)

Lemma indexed_fst {A} (l : list A) : (indexed l).*1 = seq 0 (length l).
Proof.
  unfold indexed. apply list_eq. intros i.
  rewrite list_lookup_fmap, list_lookup_imap.
  destruct (l !! i) eqn:E; simpl.
  - symmetry. apply lookup_seq. split; [done|]. by eapply lookup_lt_Some.
  - symmetry. apply lookup_seq_ge. by apply lookup_ge_None.
Qed.

Lemma indexed_snd {A} (l : list A) : (indexed l).*2 = l.
Proof.
  unfold indexed. apply list_eq. intros i.
  rewrite list_lookup_fmap, list_lookup_imap.
  by destruct (l !! i).
Qed.

Lemma elem_of_indexed {A} (l : list A) i v :
  (i, v) ∈ indexed l <-> l !! i = Some v.
Proof.
  unfold indexed. rewrite list_elem_of_lookup. split.
  - intros [k Hk]. rewrite list_lookup_imap in Hk.
    destruct (l !! k) eqn:E; simplify_eq/=. done.
  - intros H. exists i. rewrite list_lookup_imap, H. done.
Qed.

#[global] Instance key_le_total : Total key_le.
Proof. intros p q. unfold key_le. lia. Qed.

#[global] Instance key_le_trans : Transitive key_le.
Proof. intros p q r. unfold key_le. lia. Qed.

Lemma seq_strongly_sorted a n : StronglySorted le (seq a n).
Proof.
  revert a. induction n as [|n IH]; intros a; simpl; constructor.
  - apply IH.
  - apply Forall_forall. intros x Hx. apply elem_of_seq in Hx. lia.
Qed.

Lemma sorted_keys l :
  StronglySorted le (merge_sort key_le (indexed l)).*2.
Proof.
  apply StronglySorted_fmap with (R1 := key_le).
  - intros p q H. exact H.
  - apply StronglySorted_merge_sort; apply _.
Qed.

(** The sorted values of a permutation are [0..L-1] in order. *)
Lemma sorted_values_seq l :
  is_perm l -> (merge_sort key_le (indexed l)).*2 = seq 0 (length l).
Proof.
  intros Hp. apply (StronglySorted_unique le).
  - apply sorted_keys.
  - apply seq_strongly_sorted.
  - rewrite (merge_sort_Permutation key_le (indexed l)), indexed_snd. exact Hp.
Qed.

Lemma length_argsort l : length (argsort l) = length l.
Proof.
  unfold argsort. rewrite length_fmap.
  rewrite (Permutation_length (merge_sort_Permutation key_le (indexed l))).
  unfold indexed. by rewrite length_imap.
Qed.

(** [solution[argsort[j]] = j]. *)
Lemma argsort_right l j :
  is_perm l -> j < length l ->
  exists i, argsort l !! j = Some i /\ l !! i = Some j.
Proof.
  intros Hp Hj.
  destruct (lookup_lt_is_Some_2 (merge_sort key_le (indexed l)) j) as [[i v] Hiv].
  { rewrite (Permutation_length (merge_sort_Permutation key_le (indexed l))).
    unfold indexed. by rewrite length_imap. }
  assert (v = j) as ->.
  { pose proof (sorted_values_seq l Hp) as Hs.
    apply (f_equal (fun s => s !! j)) in Hs.
    rewrite list_lookup_fmap, Hiv in Hs. simpl in Hs.
    rewrite lookup_seq_lt in Hs by done. by simplify_eq. }
  exists i. split.
  - unfold argsort. by rewrite list_lookup_fmap, Hiv.
  - apply elem_of_indexed.
    rewrite <- (merge_sort_Permutation key_le (indexed l)).
    by eapply list_elem_of_lookup_2.
Qed.

Lemma perm_NoDup l : is_perm l -> NoDup l.
Proof.
  unfold is_perm. intros Hp. rewrite Hp. apply NoDup_seq.
Qed.

Lemma perm_lookup_lt l i v : is_perm l -> l !! i = Some v -> v < length l.
Proof.
  unfold is_perm. intros Hp Hi. apply list_elem_of_lookup_2 in Hi.
  rewrite Hp in Hi. apply elem_of_seq in Hi. lia.
Qed.

(** [argsort[solution[i]] = i]. *)
Lemma argsort_left l i v :
  is_perm l -> l !! i = Some v -> argsort l !! v = Some i.
Proof.
  intros Hp Hi.
  destruct (argsort_right l v Hp (perm_lookup_lt l i v Hp Hi)) as (i' & Ha & Hl).
  rewrite Ha. f_equal.
  eapply NoDup_lookup; eauto using perm_NoDup.
Qed.

Lemma gather_Some {A} (t : list A) idx out :
  gather t idx = Some out <->
  length idx = length out /\
  forall k i, idx !! k = Some i -> t !! i = out !! k.
Proof.
  unfold gather. rewrite mapM_Some. split.
  - intros H. split; [by eapply Forall2_length|].
    intros k i Hk.
    destruct (Forall2_lookup_l _ _ _ _ _ H Hk) as (y & Hy & Hty). congruence.
  - intros [Hlen H]. apply Forall2_same_length_lookup_2; [done|].
    intros k i y Hk Hy. rewrite (H k i Hk). done.
Qed.

(** C8. For every tour that is a permutation of the node ids,
    [argsort(solution)] is a two-sided inverse of [solution] under index
    composition (gather), and it is the only array with that property. *)
Theorem argsort_is_inverse_permutation (solution : list nat) :
  is_perm solution ->
  gather (argsort solution) solution = Some (seq 0 (length solution)) /\
  gather solution (argsort solution) = Some (seq 0 (length solution)) /\
  (forall pre : list nat,
      gather solution pre = Some (seq 0 (length solution)) ->
      pre = argsort solution).
Proof.
  intros Hp. split; [|split].
  - apply gather_Some. split; [by rewrite length_seq|].
    intros k v Hk. rewrite (argsort_left _ _ _ Hp Hk).
    symmetry. apply lookup_seq_lt. by eapply lookup_lt_Some.
  - apply gather_Some. split; [by rewrite length_seq, length_argsort|].
    intros k i Hk.
    assert (k < length solution) as Hlt.
    { rewrite <- length_argsort. by eapply lookup_lt_Some. }
    destruct (argsort_right _ _ Hp Hlt) as (i' & Ha & Hl).
    rewrite lookup_seq_lt by done. simpl. congruence.
  - intros pre Hg. apply gather_Some in Hg as [Hlen Hg].
    rewrite length_seq in Hlen.
    apply list_eq_same_length with (length solution);
      [by rewrite length_argsort | done |].
    intros j x y Hj Hx Hy.
    destruct (argsort_right _ _ Hp Hj) as (i' & Ha & Hl).
    pose proof (Hg j x Hx) as Hsx. rewrite lookup_seq_lt in Hsx by done.
    simpl in Hsx.
    assert (y = i') by congruence. subst y.
    eapply NoDup_lookup; eauto using perm_NoDup.
Qed.

(** The tour 0 -> 2 -> 1 -> 0 of the source's comment. *)
Lemma argsort_is_inverse_permutation_witness :
  gather (argsort [2; 0; 1]) [2; 0; 1] = Some (seq 0 3) /\
  gather [2; 0; 1] (argsort [2; 0; 1]) = Some (seq 0 3) /\
  (forall pre : list nat,
      gather [2; 0; 1] pre = Some (seq 0 3) -> pre = argsort [2; 0; 1]).
Proof.
  apply (argsort_is_inverse_permutation [2; 0; 1]).
  unfold is_perm. simpl.
  change [2; 0; 1] with ([2] ++ [0; 1]).
  rewrite (Permutation_app_comm [2] [0; 1]). done.
Defined.

Example argsort_source_comment : argsort [2; 0; 1] = [1; 2; 0].
Proof. reflexivity. Qed.

(* --------------------------------------------------------------------- *)
(** *** The cycle through the depot *)

Section Cycle.
Variable solution : list nat.
Hypothesis Hperm : is_perm solution.
Hypothesis Hpos : 0 < length solution.

Lemma succ_of_lookup i : i < length solution -> solution !! i = Some (succ_of solution i).
Proof.
  intros Hi. unfold succ_of.
  destruct (lookup_lt_is_Some_2 solution i Hi) as [v ->]. done.
Qed.

Lemma succ_of_lt i : i < length solution -> succ_of solution i < length solution.
Proof. intros Hi. eapply perm_lookup_lt; eauto using succ_of_lookup. Qed.

Lemma orbit_lt k : orbit solution k < length solution.
Proof. induction k; simpl; [done|]. by apply succ_of_lt. Qed.

Lemma orbit_lookup k : solution !! orbit solution k = Some (orbit solution (S k)).
Proof. simpl. apply succ_of_lookup, orbit_lt. Qed.

Lemma succ_of_inj i j :
  i < length solution -> j < length solution ->
  succ_of solution i = succ_of solution j -> i = j.
Proof.
  intros Hi Hj E. eapply NoDup_lookup; [by apply perm_NoDup | |].
  - by apply succ_of_lookup.
  - rewrite E. by apply succ_of_lookup.
Qed.

Lemma orbit_add a k : orbit solution (a + k) = orbit solution a ->
  orbit solution k = 0.
Proof.
  induction a as [|a IH]; simpl; [done|].
  intros E. apply IH. apply succ_of_inj; auto using orbit_lt.
Qed.

Lemma orbit_collision a b :
  a < b -> orbit solution a = orbit solution b -> orbit solution (b - a) = 0.
Proof.
  intros Hab E. apply (orbit_add a). replace (a + (b - a)) with b by lia. done.
Qed.

Lemma orbit_period p k : orbit solution p = 0 ->
  orbit solution (k + p) = orbit solution k.
Proof.
  intros Hp. induction k as [|k IH]; simpl; [done|]. by rewrite IH.
Qed.

Lemma orbit_mod p k : 0 < p -> orbit solution p = 0 ->
  orbit solution k = orbit solution (k mod p).
Proof.
  intros Hp0 Hp.
  induction k as [k IH] using lt_wf_ind.
  destruct (decide (k < p)) as [Hlt|Hge].
  - by rewrite Nat.mod_small.
  - replace k with ((k - p) + p) at 1 by lia.
    rewrite orbit_period by done. rewrite IH by lia.
    f_equal. replace k with ((k - p) + 1 * p) at 2 by lia.
    by rewrite Nat.Div0.mod_add.
Qed.

Hypothesis Hreach : forall j, j < length solution -> exists k, orbit solution k = j.

(** Some positive number of steps leads back to the depot. *)
Lemma depot_returns : exists p, 0 < p /\ orbit solution p = 0.
Proof.
  assert (0 ∈ solution) as H0.
  { unfold is_perm in Hperm. rewrite Hperm. apply elem_of_seq. lia. }
  apply list_elem_of_lookup in H0 as [j Hj].
  destruct (Hreach j) as [k Hk]; [by eapply lookup_lt_Some|].
  exists (S k). split; [lia|]. simpl. rewrite Hk. unfold succ_of. by rewrite Hj.
Qed.

(** A return to the depot after [p] steps bounds the number of nodes. *)
Lemma period_covers p : 0 < p -> orbit solution p = 0 -> length solution <= p.
Proof.
  intros Hp0 Hp.
  assert (seq 0 (length solution) ⊆+ map (orbit solution) (seq 0 p)) as Hsub.
  { apply NoDup_submseteq; [apply NoDup_seq|].
    intros j Hj. apply elem_of_seq in Hj.
    destruct (Hreach j) as [k Hk]; [lia|].
    rewrite (orbit_mod p k Hp0 Hp) in Hk. subst j.
    apply list_elem_of_fmap. exists (k mod p). split; [done|].
    apply elem_of_seq. pose proof (Nat.mod_upper_bound k p). lia. }
  apply submseteq_length in Hsub. by rewrite length_seq, length_map, length_seq in Hsub.
Qed.

(** No return to the depot before all nodes are visited. *)
Lemma no_early_return k : 0 < k < length solution -> orbit solution k <> 0.
Proof.
  intros Hk E. pose proof (period_covers k (proj1 Hk) E). lia.
Qed.

Lemma orbit_inj a b :
  a < length solution -> b < length solution ->
  orbit solution a = orbit solution b -> a = b.
Proof.
  intros Ha Hb E.
  destruct (decide (a = b)) as [|Hne]; [done|]. exfalso.
  destruct (decide (a < b)).
  - apply (no_early_return (b - a)); [lia|]. by apply orbit_collision.
  - apply (no_early_return (a - b)); [lia|]. apply orbit_collision; [lia|done].
Qed.

(** After exactly [L] steps the walk is back at the depot: otherwise the
    first [L + 1] positions would be [L + 1] distinct nodes. *)
Lemma orbit_full : orbit solution (length solution) = 0.
Proof.
  destruct (decide (orbit solution (length solution) = 0)) as [|Hnz]; [done|].
  exfalso.
  assert (forall a b, a < b <= length solution ->
            orbit solution a = orbit solution b -> False) as Hcol.
  { intros a b Hab E.
    pose proof (orbit_collision a b (proj1 Hab) E) as Hz.
    pose proof (period_covers (b - a) ltac:(lia) Hz) as Hc.
    replace (b - a) with (length solution) in Hz by lia. done. }
  assert (NoDup (map (orbit solution) (seq 0 (S (length solution))))) as Hnd.
  { apply NoDup_fmap_2_strong; [|apply NoDup_seq].
    intros a b Ha Hb E. apply elem_of_seq in Ha, Hb.
    destruct (decide (a = b)) as [|Hab]; [done|]. exfalso.
    destruct (decide (a < b)); [apply (Hcol a b)|apply (Hcol b a)]; try done; lia. }
  assert (map (orbit solution) (seq 0 (S (length solution)))
            ⊆+ seq 0 (length solution)) as Hsub.
  { apply NoDup_submseteq; [done|].
    intros x Hx. apply list_elem_of_fmap in Hx as (k & -> & _).
    apply elem_of_seq. pose proof (orbit_lt k). lia. }
  apply submseteq_length in Hsub.
  rewrite length_map, !length_seq in Hsub. lia.
Qed.

End Cycle.

(** A checkable criterion: a permutation whose walk meets every node. *)
Lemma single_cycle_by_walk solution :
  solution ≡ₚ seq 0 (length solution) ->
  Forall (fun j => j ∈ walk solution) (seq 0 (length solution)) ->
  single_cycle solution.
Proof.
  intros Hp Hw. split; [exact Hp|]. intros j Hj.
  rewrite Forall_forall in Hw.
  destruct (proj1 (list_elem_of_fmap _ _ _) (Hw j ltac:(apply elem_of_seq; lia)))
    as (i & -> & _).
  by exists (S i).
Qed.

(** Tours used as examples: 0 -> 1 -> 2 -> 0 (one request pair) and
    0 -> 1 -> 2 -> 4 -> 3 -> 0 (two pairs, delivered last-in-first-out). *)
Definition tour3 : list nat := [1; 2; 0].
Definition tour5 : list nat := [1; 2; 4; 0; 3].

Lemma tour3_single_cycle : single_cycle tour3.
Proof. apply single_cycle_by_walk; compute_done. Qed.

Lemma tour5_single_cycle : single_cycle tour5.
Proof. apply single_cycle_by_walk; compute_done. Qed.

End Tour.

(* ===================================================================== *)
(** ** The positional state encoder: [EmbeddingNet._position_embedding] *)
(* ===================================================================== *)

Module PositionalState.
Import Tour.

#[local] Arguments orbit : simpl never.
#[local] Arguments Nat.div : simpl never.
#[local] Arguments Nat.modulo : simpl never.

(** The float [-0.01] that marks a closed or never opened stack slot. *)
Definition sentinel : Q := (-1 # 100)%Q.

(** The float [i + 1] written at loop index [i]. *)
Definition float_of (k : nat) : Q := inject_Z (Z.of_nat k).

(** The loop-carried tensors of one instance. *)
Record loop_state := LoopState {
  pre : nat;
  visit_index : list nat;
  stacks : list Q;
  top2 : list (nat * nat)
}.

(** What [stacks.topk(2)[1]] promises: the indices of the largest and the
    second largest entry, in that order.  Which index is returned among
    equal entries is left open. *)
Definition is_top2 (l : list Q) (t : nat * nat) : Prop :=
  t.1 <> t.2 /\
  exists x y, l !! t.1 = Some x /\ l !! t.2 = Some y /\ (y <= x)%Q /\
    forall k z, k <> t.1 -> k <> t.2 -> l !! k = Some z -> (z <= y)%Q.

(** [topk(2)] raises on fewer than two entries. *)
Definition topk2_correct (topk2 : list Q -> option (nat * nat)) : Prop :=
  forall l,
    (2 <= length l -> exists t, topk2 l = Some t /\ is_top2 l t) /\
    (length l < 2 -> topk2 l = None).

(** One implementation of [topk(2)[1]]: sort the entries descending, the
    lower index first among equal entries, and keep the first two
    indices. *)
Definition val_ge (p q : nat * Q) : Prop :=
  (q.2 < p.2)%Q \/ ((q.2 == p.2)%Q /\ p.1 <= q.1).

#[global] Instance val_ge_dec p q : Decision (val_ge p q).
Proof.
  unfold val_ge. destruct (Qlt_le_dec q.2 p.2) as [H|H].
  - left. by left.
  - destruct (Qlt_le_dec p.2 q.2) as [H'|H'].
    + right. intros [H1|[H1 _]]; lra.
    + destruct (le_dec p.1 q.1) as [Hi|Hi].
      * left. right. split; [lra|exact Hi].
      * right. intros [H1|[_ H1]]; [lra|done].
Defined.

Definition topk2_sorted (l : list Q) : option (nat * nat) :=
  match merge_sort val_ge (indexed l) with
  | (a, _) :: (b, _) :: _ => Some (a, b)
  | _ => None
  end.

Section PositionEmbedding.
Context {emb : Type}.
(** [self.pattern], one row per position, and [topk(2)[1]]. *)
Variable pattern : list emb.
Variable topk2 : list Q -> option (nat * nat).

(** State before the loop. *)
Definition init_state (seq_length half_size : nat) (calc_stacks : bool)
  : loop_state :=
  {| pre := 0;
     visit_index := replicate seq_length 0;
     stacks := if calc_stacks
               then <[0 := 0%Q]> (replicate (half_size + 1) sentinel)
               else [];
     top2 := if calc_stacks then replicate seq_length (0, 0) else [] |}.

(** The stack update of one iteration: a pickup is opened with the current
    visit index, a delivery closes its pickup. *)
Definition update_stacks (half_size i current : nat) (st : list Q)
  : option (list Q) :=
  let index1 := (current <=? half_size) && (0 <? current) in
  let index2 := (half_size <? current) && (0 <? current) in
  let st1 := if index1 then <[current := float_of (i + 1)]> st else st in
  if index2 then
    if current - half_size <? length st1
    then Some (<[current - half_size := sentinel]> st1)
    else None
  else Some st1.

(** Body of [for i in range(seq_length)]. *)
Definition loop_body (solution : list nat) (half_size : nat)
    (calc_stacks : bool) (i : nat) (s : loop_state) : option loop_state :=
  current ← solution !! pre s;
  if current <? length (visit_index s) then
    let vi := <[current := i + 1]> (visit_index s) in
    if calc_stacks then
      st ← update_stacks half_size i current (stacks s);
      t ← topk2 st;
      Some {| pre := current; visit_index := vi; stacks := st;
              top2 := <[current := t]> (top2 s) |}
    else
      Some {| pre := current; visit_index := vi; stacks := stacks s;
              top2 := top2 s |}
  else None.

(** The state after the first [k] iterations. *)
Fixpoint run_loop (solution : list nat) (calc_stacks : bool) (k : nat)
  : option loop_state :=
  match k with
  | 0 => Some (init_state (length solution) (length solution / 2) calc_stacks)
  | S i =>
      s ← run_loop solution calc_stacks i;
      loop_body solution (length solution / 2) calc_stacks i s
  end.

(** [self.pattern.expand(batch_size, seq_length, embedding_dim)]. *)
Definition expand_pattern (seq_length : nat) : option (list emb) :=
  if decide (length pattern = seq_length) then Some pattern
  else match pattern with
       | [row] => Some (replicate seq_length row)
       | _ => None
       end.

Definition _position_embedding (solution : list nat) (calc_stacks : bool)
  : option (list emb * list nat * option (list (nat * nat))) :=
  let seq_length := length solution in
  position_emb_new ← expand_pattern seq_length;
  s ← run_loop solution calc_stacks seq_length;
  let index := map (fun v => v mod seq_length) (visit_index s) in
  pos ← gather position_emb_new index;
  Some (pos, index, if calc_stacks then Some (top2 s) else None).

End PositionEmbedding.

(** Pickup [p] is open after [k] steps: it was visited at some step [r <= k]
    and its delivery [p + n] has not been visited since. *)
Definition is_open (solution : list nat) (n k p : nat) (r : nat) : Prop :=
  1 <= r <= k /\ orbit solution r = p /\
  forall j, r < j <= k -> orbit solution j <> p + n.

(** The same, computed along the walk: the visit index at which pickup [p]
    was opened if it is open after [k] steps. *)
Fixpoint open_since (solution : list nat) (n k p : nat) : option nat :=
  match k with
  | 0 => None
  | S j =>
      let c := orbit solution (S j) in
      if decide (c = p) then Some (S j)
      else if decide (c = p + n) then None
      else open_since solution n j p
  end.

(** The value the simulation keeps in the slot of pickup [p]. *)
Definition slot (solution : list nat) (n k p : nat) : Q :=
  match open_since solution n k p with
  | Some r => float_of r
  | None => sentinel
  end.

(* --------------------------------------------------------------------- *)
(** *** The loop invariant *)

Section Simulation.
Context {emb : Type}.
Variable pattern : list emb.
Variable topk2 : list Q -> option (nat * nat).
Variable solution : list nat.
Variable n : nat.
Hypothesis Hcyc : single_cycle solution.
Hypothesis Hlen : length solution = 2 * n + 1.

Lemma half_size_eq : length solution / 2 = n.
Proof using Hlen.
  rewrite Hlen. replace (2 * n + 1) with (1 + n * 2) by lia.
  rewrite Nat.div_add by lia. done.
Qed.

Lemma Lpos : 0 < length solution.
Proof using Hlen. lia. Qed.

Lemma visit_lt k : orbit solution k < length solution.
Proof using Hcyc Hlen. apply orbit_lt; [apply Hcyc | apply Lpos]. Qed.

Lemma visit_inj a b :
  1 <= a <= length solution -> 1 <= b <= length solution ->
  orbit solution a = orbit solution b -> a = b.
Proof using Hcyc Hlen.
  intros Ha Hb E. destruct a as [|a], b as [|b]; try lia.
  simpl in E. apply succ_of_inj in E; auto using visit_lt; [|apply Hcyc].
  f_equal. destruct Hcyc as [Hp Hr].
  apply (orbit_inj solution Hp Lpos Hr); [lia..|done].
Qed.

Lemma visit_depot : orbit solution (length solution) = 0.
Proof using Hcyc Hlen.
  destruct Hcyc as [Hp Hr]. apply (orbit_full solution Hp Lpos Hr).
Qed.

(** Every node is visited at exactly one step [1..L]. *)
Lemma visit_all v : v < length solution ->
  exists r, 1 <= r <= length solution /\ orbit solution r = v.
Proof using Hcyc Hlen.
  intros Hv. destruct Hcyc as [Hp Hr]. destruct (Hr v Hv) as [k Hk].
  rewrite (orbit_mod solution Lpos (length solution) k Lpos visit_depot) in Hk.
  pose proof (Nat.mod_upper_bound k (length solution) ltac:(lia)) as Hm.
  destruct (decide (k mod length solution = 0)) as [E|E].
  - exists (length solution). split; [lia|].
    rewrite visit_depot. rewrite E in Hk. done.
  - exists (k mod length solution). split; [lia|done].
Qed.

Lemma open_since_is_open k p r :
  k <= length solution ->
  open_since solution n k p = Some r <-> is_open solution n k p r.
Proof using Hcyc Hlen.
  induction k as [|k IH]; intros Hk; simpl.
  - split; [done|]. intros [? _]. lia.
  - repeat case_decide.
    + split.
      * intros [= <-]. split; [lia|]. split; [done|]. intros; lia.
      * intros (Hr & Ho & _). f_equal. symmetry. apply visit_inj; [lia..|].
        simpl. congruence.
    + split; [done|]. intros (Hr & Ho & Hn).
      destruct (decide (r = S k)) as [->|]; [simpl in Ho; congruence|].
      exfalso. apply (Hn (S k)); [lia|done].
    + rewrite IH by lia. split.
      * intros (Hr & Ho & Hn). split; [lia|]. split; [done|].
        intros j Hj. destruct (decide (j = S k)) as [->|]; [done|].
        apply Hn. lia.
      * intros (Hr & Ho & Hn).
        destruct (decide (r = S k)) as [->|]; [simpl in Ho; congruence|].
        split; [lia|]. split; [done|]. intros j Hj. apply Hn. lia.
Qed.

(** What holds of the loop state after [k] iterations. *)
Definition loop_inv (calc_stacks : bool) (k : nat) (s : loop_state) : Prop :=
  pre s = orbit solution k /\
  length (visit_index s) = length solution /\
  (forall j, j < k -> visit_index s !! orbit solution (S j) = Some (j + 1)) /\
  (calc_stacks = true ->
     length (stacks s) = n + 1 /\
     stacks s !! 0 = Some 0%Q /\
     (forall p, 1 <= p <= n -> stacks s !! p = Some (slot solution n k p)) /\
     length (top2 s) = length solution /\
     (forall j, j < k -> exists sj t,
         run_loop topk2 solution true (S j) = Some sj /\
         topk2 (stacks sj) = Some t /\
         top2 s !! orbit solution (S j) = Some t)).

Lemma update_stacks_inv i st :
  i < length solution ->
  length st = n + 1 -> st !! 0 = Some 0%Q ->
  (forall p, 1 <= p <= n -> st !! p = Some (slot solution n i p)) ->
  exists st',
    update_stacks n i (orbit solution (S i)) st = Some st' /\
    length st' = n + 1 /\ st' !! 0 = Some 0%Q /\
    (forall p, 1 <= p <= n -> st' !! p = Some (slot solution n (S i) p)).
Proof using Hcyc Hlen.
  intros Hi Hl H0 Hs. unfold update_stacks.
  pose proof (visit_lt (S i)) as Hc.
  set (c := orbit solution (S i)) in *.
  assert (forall p, slot solution n (S i) p =
            if decide (c = p) then float_of (S i)
            else if decide (c = p + n) then sentinel
            else slot solution n i p) as Hslot.
  { intros p. unfold slot. simpl. fold c. by repeat case_decide. }
  destruct (decide (c = 0)) as [Hc0|Hc0].
  - rewrite Hc0. replace (0 <? 0) with false by done.
    rewrite !andb_false_r. exists st. repeat split; try done.
    intros p Hp. rewrite Hslot, Hs by done. repeat case_decide; try lia. done.
  - destruct (decide (c <= n)) as [Hle|Hgt].
    + replace (c <=? n) with true by (symmetry; apply Nat.leb_le; lia).
      replace (0 <? c) with true by (symmetry; apply Nat.ltb_lt; lia).
      replace (n <? c) with false by (symmetry; apply Nat.ltb_ge; lia).
      simpl. eexists. split; [done|]. rewrite length_insert.
      split; [done|]. split.
      * rewrite list_lookup_insert_ne by lia. done.
      * intros p Hp. rewrite Hslot.
        destruct (decide (c = p)) as [->|Hne].
        -- rewrite list_lookup_insert_eq by lia. do 2 f_equal. lia.
        -- rewrite list_lookup_insert_ne by done.
           case_decide; [lia|]. by apply Hs.
    + replace (c <=? n) with false by (symmetry; apply Nat.leb_gt; lia).
      replace (n <? c) with true by (symmetry; apply Nat.ltb_lt; lia).
      replace (0 <? c) with true by (symmetry; apply Nat.ltb_lt; lia).
      simpl.
      replace (c - n <? length st) with true
        by (symmetry; apply Nat.ltb_lt; lia).
      eexists. split; [done|]. rewrite length_insert.
      split; [done|]. split.
      * rewrite list_lookup_insert_ne by lia. done.
      * intros p Hp. rewrite Hslot.
        destruct (decide (c = p)) as [->|Hne]; [lia|].
        destruct (decide (c = p + n)) as [->|Hne'].
        -- replace (p + n - n) with p by lia.
           rewrite list_lookup_insert_eq by lia. done.
        -- rewrite list_lookup_insert_ne by lia. by apply Hs.
Qed.

Lemma init_inv calc_stacks :
  loop_inv calc_stacks 0
    (init_state (length solution) (length solution / 2) calc_stacks).
Proof using Hcyc Hlen.
  rewrite half_size_eq.
  unfold loop_inv, init_state; cbn [pre visit_index stacks top2].
  split; [done|]. split; [by rewrite length_replicate|].
  split; [intros; lia|]. intros ->.
  rewrite length_insert, !length_replicate.
  split; [done|]. split.
  { rewrite list_lookup_insert_eq; [done|]. rewrite length_replicate. lia. }
  split; [|split; [done|intros; lia]].
  intros p Hp. rewrite list_lookup_insert_ne by lia.
  apply lookup_replicate_2. lia.
Qed.

Lemma loop_body_inv calc_stacks k s :
  (calc_stacks = true -> topk2_correct topk2 /\ 1 <= n) ->
  k < length solution ->
  run_loop topk2 solution calc_stacks k = Some s ->
  loop_inv calc_stacks k s ->
  exists s', loop_body topk2 solution (length solution / 2) calc_stacks k s
               = Some s' /\
             loop_inv calc_stacks (S k) s'.
Proof using Hcyc Hlen.
  intros Htop Hk Hrun (Hpre & Hvl & Hvi & Hst).
  pose proof (visit_lt (S k)) as Hc.
  assert (solution !! pre s = Some (orbit solution (S k))) as Hcur.
  { rewrite Hpre. apply orbit_lookup; [apply Hcyc | apply Lpos]. }
  assert (forall j, j < k -> orbit solution (S j) <> orbit solution (S k)) as Hne.
  { intros j Hj E. apply visit_inj in E; lia. }
  unfold loop_body. rewrite Hcur. simpl.
  set (c := orbit solution (S k)) in *.
  replace (c <? length (visit_index s)) with true
    by (symmetry; apply Nat.ltb_lt; lia).
  assert (forall j, j < S k ->
            <[c := k + 1]> (visit_index s) !! orbit solution (S j)
            = Some (j + 1)) as Hvi'.
  { intros j Hj. destruct (decide (j = k)) as [->|].
    - apply list_lookup_insert_eq. fold c. lia.
    - rewrite list_lookup_insert_ne; [apply Hvi; lia|].
      intros E. apply (Hne j); [lia|done]. }
  destruct calc_stacks.
  - destruct (Htop eq_refl) as [Htk Hn].
    destruct (Hst eq_refl) as (Hsl & Hs0 & Hsp & Htl & Htp).
    rewrite half_size_eq.
    destruct (update_stacks_inv k (stacks s) Hk Hsl Hs0 Hsp)
      as (st' & Hupd & Hl' & H0' & Hp').
    fold c in Hupd. rewrite Hupd. simpl.
    destruct (proj1 (Htk st') ltac:(lia)) as (t & Ht & _).
    rewrite Ht. simpl. eexists. split; [done|].
    assert (run_loop topk2 solution true (S k)
            = Some {| pre := c; visit_index := <[c := k + 1]> (visit_index s);
                      stacks := st'; top2 := <[c := t]> (top2 s) |}) as Hrun'.
    { simpl. rewrite Hrun. simpl. unfold loop_body. rewrite Hcur. simpl.
      fold c.
      replace (c <? length (visit_index s)) with true
        by (symmetry; apply Nat.ltb_lt; lia).
      rewrite half_size_eq, Hupd. simpl. rewrite Ht. done. }
    unfold loop_inv; simpl. split; [done|]. rewrite !length_insert.
    split; [done|]. split; [done|]. intros _.
    split; [done|]. split; [done|]. split; [done|]. split; [done|].
    intros j Hj. destruct (decide (j = k)) as [->|].
    + eexists _, t. split; [exact Hrun'|]. split; [done|].
      apply list_lookup_insert_eq. fold c. lia.
    + destruct (Htp j ltac:(lia)) as (sj & tj & ? & ? & ?).
      exists sj, tj. split; [done|]. split; [done|].
      rewrite list_lookup_insert_ne; [done|].
      intros E. apply (Hne j); [lia|done].
  - eexists. split; [done|]. unfold loop_inv; simpl.
    split; [done|]. rewrite length_insert.
    split; [done|]. split; [done|]. done.
Qed.

Lemma run_loop_inv calc_stacks k :
  (calc_stacks = true -> topk2_correct topk2 /\ 1 <= n) ->
  k <= length solution ->
  exists s, run_loop topk2 solution calc_stacks k = Some s /\
            loop_inv calc_stacks k s.
Proof using Hcyc Hlen.
  intros Htop. induction k as [|k IH]; intros Hk.
  - eexists. split; [done|]. apply init_inv.
  - destruct IH as (s & Hrun & Hinv); [lia|].
    destruct (loop_body_inv calc_stacks k s Htop ltac:(lia) Hrun Hinv)
      as (s' & Hb & Hinv').
    exists s'. split; [|done]. simpl. rewrite Hrun. done.
Qed.

Lemma mod_rank_inj a b :
  1 <= a <= length solution -> 1 <= b <= length solution ->
  a mod length solution = b mod length solution -> a = b.
Proof using Hlen.
  intros Ha Hb E.
  destruct (decide (a = length solution)) as [->|Hna];
    destruct (decide (b = length solution)) as [->|Hnb]; try done.
  - rewrite Nat.Div0.mod_same, Nat.mod_small in E by lia. lia.
  - rewrite Nat.Div0.mod_same, Nat.mod_small in E by lia. lia.
  - rewrite !Nat.mod_small in E by lia. done.
Qed.

(** The encoder returns the final loop state's arrays, the visit index
    reduced modulo the sequence length. *)
Lemma position_embedding_result (calc_stacks : bool) :
  (calc_stacks = true -> topk2_correct topk2 /\ 1 <= n) ->
  length pattern = length solution ->
  exists s pos,
    run_loop topk2 solution calc_stacks (2 * n + 1) = Some s /\
    loop_inv calc_stacks (2 * n + 1) s /\
    _position_embedding pattern topk2 solution calc_stacks
      = Some (pos, map (fun v => v mod (2 * n + 1)) (visit_index s),
              if calc_stacks then Some (top2 s) else None).
Proof using Hcyc Hlen.
  intros Htop Hpat.
  destruct (run_loop_inv calc_stacks (length solution) Htop ltac:(lia))
    as (s & Hrun & Hinv).
  set (vi := map (fun v => v mod (2 * n + 1)) (visit_index s)).
  assert (map (fun v => v mod length solution) (visit_index s) = vi) as Hvieq.
  { apply map_ext. intros v. by rewrite Hlen. }
  assert (is_Some (gather pattern vi)) as [pos Hpos].
  { unfold gather. apply mapM_is_Some, Forall_forall. intros x Hx.
    apply list_elem_of_fmap in Hx as (v & -> & _). simpl.
    apply lookup_lt_is_Some_2. rewrite Hpat, Hlen.
    apply Nat.mod_upper_bound. lia. }
  exists s, pos. rewrite <- Hlen at 1 2. split; [done|]. split; [done|].
  unfold _position_embedding, expand_pattern.
  rewrite decide_True by done. simpl. rewrite Hrun. simpl.
  rewrite Hvieq, Hpos. done.
Qed.

Lemma final_ranks s :
  loop_inv true (2 * n + 1) s \/ loop_inv false (2 * n + 1) s ->
  forall r, 1 <= r <= 2 * n + 1 -> visit_index s !! orbit solution r = Some r.
Proof using Hcyc Hlen.
  intros Hinv r Hr. destruct r as [|j]; [lia|].
  destruct Hinv as [(_ & _ & Hvi & _)|(_ & _ & Hvi & _)];
    rewrite (Hvi j) by lia; f_equal; lia.
Qed.

(** C7 (as the code has it). For every single-cycle tour of [2n+1] nodes
    the loop records each node's 1-based rank in tour order, counted from
    the depot's successor, so the depot gets rank [2n+1]; the returned
    visit index is that array reduced modulo [2n+1]: it has length [2n+1],
    the depot's entry is 0, every other node keeps its rank in [1..2n],
    and all entries are distinct values of [0..2n]. *)
Theorem visit_index_is_rank_mod_length (calc_stacks : bool) :
  (calc_stacks = true -> topk2_correct topk2 /\ 1 <= n) ->
  length pattern = length solution ->
  exists s pos vi t2,
    run_loop topk2 solution calc_stacks (2 * n + 1) = Some s /\
    (forall r, 1 <= r <= 2 * n + 1 ->
       visit_index s !! orbit solution r = Some r) /\
    _position_embedding pattern topk2 solution calc_stacks
      = Some (pos, vi, t2) /\
    vi = map (fun v => v mod (2 * n + 1)) (visit_index s) /\
    length vi = 2 * n + 1 /\
    vi !! 0 = Some 0 /\
    (forall r, 1 <= r <= 2 * n -> vi !! orbit solution r = Some r) /\
    NoDup vi /\
    (forall x, x ∈ vi -> x <= 2 * n).
Proof using Hcyc Hlen.
  intros Htop Hpat.
  destruct (position_embedding_result calc_stacks Htop Hpat)
    as (s & pos & Hrun & Hinv & Hres).
  assert (forall r, 1 <= r <= 2 * n + 1 ->
            visit_index s !! orbit solution r = Some r) as Hrank.
  { apply final_ranks. destruct calc_stacks; auto. }
  destruct Hinv as (_ & Hvl & _).
  set (vi := map (fun v => v mod (2 * n + 1)) (visit_index s)) in *.
  assert (forall r, 1 <= r <= 2 * n + 1 ->
            vi !! orbit solution r = Some (r mod (2 * n + 1))) as Hvm.
  { intros r Hr. unfold vi. rewrite list_lookup_fmap, (Hrank r Hr). done. }
  exists s, pos, vi, (if calc_stacks then Some (top2 s) else None).
  split; [done|]. split; [done|]. split; [done|].
  split; [done|]. split; [unfold vi; rewrite length_map; lia|]. split.
  { assert (orbit solution (2 * n + 1) = 0) as Hd
      by (rewrite <- Hlen; apply visit_depot).
    pose proof (Hvm (2 * n + 1) ltac:(lia)) as H.
    rewrite Hd, Nat.Div0.mod_same in H. exact H. }
  split.
  { intros r Hr. rewrite Hvm by lia. by rewrite Nat.mod_small by lia. }
  split.
  - apply NoDup_alt. intros i j x Hi Hj.
    destruct (visit_all i) as (ri & Hri & <-).
    { apply lookup_lt_Some in Hi. unfold vi in Hi.
      by rewrite length_map, Hvl in Hi. }
    destruct (visit_all j) as (rj & Hrj & <-).
    { apply lookup_lt_Some in Hj. unfold vi in Hj.
      by rewrite length_map, Hvl in Hj. }
    rewrite Hvm in Hi, Hj by lia.
    f_equal. apply mod_rank_inj; [done..|]. rewrite Hlen. congruence.
  - intros x Hx. apply list_elem_of_fmap in Hx as (v & -> & _).
    pose proof (Nat.mod_upper_bound v (2 * n + 1)). lia.
Qed.

(* --------------------------------------------------------------------- *)
(** *** Signs of the stack slots and the top-2 entry *)

Lemma float_of_pos r : 1 <= r -> (0 < float_of r)%Q.
Proof.
  intros Hr. unfold float_of. change 0%Q with (inject_Z 0).
  rewrite <- Zlt_Qlt. lia.
Qed.

Lemma float_of_le r r' : (float_of r <= float_of r')%Q -> r <= r'.
Proof. unfold float_of. rewrite <- Zle_Qle. lia. Qed.

Lemma sentinel_neg : (sentinel < 0)%Q.
Proof. reflexivity. Qed.

(** Two distinct pickups are open after [k] steps. *)
Definition two_open (k : nat) : Prop :=
  exists p q rp rq, p <> q /\ 1 <= p <= n /\ 1 <= q <= n /\
    is_open solution n k p rp /\ is_open solution n k q rq.

Lemma slot_open k p r :
  k <= length solution -> is_open solution n k p r ->
  slot solution n k p = float_of r /\ (0 < slot solution n k p)%Q.
Proof using Hcyc Hlen.
  intros Hk Ho. pose proof Ho as (Hr & _).
  apply open_since_is_open in Ho; [|done].
  unfold slot. rewrite Ho. split; [done|]. apply float_of_pos. lia.
Qed.

Lemma slot_nonneg_open k p :
  k <= length solution -> (0 <= slot solution n k p)%Q ->
  exists r, is_open solution n k p r /\ slot solution n k p = float_of r.
Proof using Hcyc Hlen.
  intros Hk Hs. unfold slot in *.
  destruct (open_since solution n k p) as [r|] eqn:E.
  - exists r. split; [|done]. by apply open_since_is_open.
  - exfalso. apply (Qlt_not_le _ _ sentinel_neg Hs).
Qed.

Lemma slot_sign k p :
  k <= length solution ->
  ((exists r, is_open solution n k p r) -> (0 < slot solution n k p)%Q) /\
  ((~ exists r, is_open solution n k p r) -> (slot solution n k p < 0)%Q).
Proof using Hcyc Hlen.
  intros Hk. split.
  - intros [r Hr]. by eapply slot_open.
  - intros Hno. unfold slot.
    destruct (open_since solution n k p) as [r|] eqn:E.
    + exfalso. apply Hno. exists r. by apply open_since_is_open.
    + apply sentinel_neg.
Qed.

(** The top-2 entry of a stack array that satisfies the invariant. *)
Lemma top2_of_stacks k st a b :
  k <= length solution ->
  length st = n + 1 -> st !! 0 = Some 0%Q ->
  (forall p, 1 <= p <= n -> st !! p = Some (slot solution n k p)) ->
  is_top2 st (a, b) ->
  ((a = 0 \/ b = 0) <-> ~ two_open k) /\
  (forall p r, 1 <= p <= n -> is_open solution n k p r ->
     exists ra, 1 <= a <= n /\ is_open solution n k a ra /\ r <= ra).
Proof using Hcyc Hlen.
  intros Hk Hl H0 Hs (Hab & x & y & Hx & Hy & Hyx & Hoth). simpl in *.
  assert (a < n + 1) as Ha by (rewrite <- Hl; by eapply lookup_lt_Some).
  assert (b < n + 1) as Hb by (rewrite <- Hl; by eapply lookup_lt_Some).
  assert (forall p r, 1 <= p <= n -> is_open solution n k p r ->
            p <> a -> (float_of r <= x)%Q) as Hle.
  { intros p r Hp Ho Hpa. destruct (slot_open k p r Hk Ho) as [E _].
    destruct (decide (p = b)) as [->|Hpb].
    - rewrite Hs in Hy by done. simplify_eq. by rewrite <- E.
    - eapply Qle_trans; [|exact Hyx]. rewrite <- E.
      apply (Hoth p); [done..|]. by apply Hs. }
  split; [split|].
  - intros Hz (p & q & rp & rq & Hpq & Hp & Hq & Hop & Hoq).
    destruct (slot_open k p rp Hk Hop) as [_ Hpp].
    destruct (slot_open k q rq Hk Hoq) as [_ Hqp].
    assert (forall u, 1 <= u <= n -> u <> a -> u <> b ->
              (slot solution n k u <= y)%Q) as Hrest.
    { intros u Hu ??. apply (Hoth u); [done..|]. by apply Hs. }
    destruct Hz as [->| ->].
    + rewrite H0 in Hx. simplify_eq.
      destruct (decide (p = b)) as [->|Hpb].
      * rewrite Hs in Hy by done. simplify_eq. lra.
      * pose proof (Hrest p Hp ltac:(lia) Hpb). lra.
    + rewrite H0 in Hy. simplify_eq.
      destruct (decide (p = a)) as [->|Hpa].
      * pose proof (Hrest q Hq ltac:(lia) ltac:(lia)). lra.
      * pose proof (Hrest p Hp Hpa ltac:(lia)). lra.
  - intros Hno.
    destruct (decide (a = 0)) as [|Ha0]; [by left|].
    destruct (decide (b = 0)) as [|Hb0]; [by right|].
    exfalso. apply Hno.
    pose proof (Hoth 0 0%Q ltac:(lia) ltac:(lia) H0) as Hy0.
    rewrite Hs in Hx, Hy by lia. simplify_eq.
    destruct (slot_nonneg_open k a Hk) as (ra & Hoa & _); [lra|].
    destruct (slot_nonneg_open k b Hk) as (rb & Hob & _); [lra|].
    exists a, b, ra, rb.
    split; [done|]. split; [lia|]. split; [lia|]. split; done.
  - intros p r Hp Ho.
    destruct (decide (p = a)) as [->|Hpa].
    { exists r. split; [lia|]. split; [done|lia]. }
    pose proof (Hle p r Hp Ho Hpa) as Hrx.
    pose proof (float_of_pos r ltac:(destruct Ho; lia)) as Hrp.
    assert (a <> 0) as Ha0.
    { intros ->. rewrite H0 in Hx. simplify_eq. lra. }
    rewrite Hs in Hx by lia. simplify_eq.
    destruct (slot_nonneg_open k a Hk) as (ra & Hoa & Era); [lra|].
    exists ra. split; [lia|]. split; [done|].
    apply float_of_le. by rewrite <- Era.
Qed.

(** C9. Throughout the stack simulation of a single-cycle tour with
    [n >= 1] request pairs, the depot slot of the stack array is 0, the slot
    of every open pickup is strictly positive and the slot of every closed
    or never opened pickup is strictly negative.  Hence, in the returned
    [top2], the entry of the node visited at step [k] contains index 0
    exactly when fewer than two pickups are open after that visit, and its
    first component is an open pickup opened no earlier than any other open
    pickup (the most recently opened one) whenever some pickup is open. *)
Theorem stack_slots_signs_and_top2 :
  topk2_correct topk2 -> 1 <= n -> length pattern = length solution ->
  (forall k, k <= 2 * n + 1 ->
     exists s, run_loop topk2 solution true k = Some s /\
       stacks s !! 0 = Some 0%Q /\
       forall p, 1 <= p <= n ->
         exists x, stacks s !! p = Some x /\
           ((exists r, is_open solution n k p r) -> (0 < x)%Q) /\
           ((~ exists r, is_open solution n k p r) -> (x < 0)%Q)) /\
  exists pos vi t2,
    _position_embedding pattern topk2 solution true = Some (pos, vi, Some t2) /\
    forall k, 1 <= k <= 2 * n + 1 ->
      exists a b, t2 !! orbit solution k = Some (a, b) /\
        ((a = 0 \/ b = 0) <-> ~ two_open k) /\
        (forall p r, 1 <= p <= n -> is_open solution n k p r ->
           exists ra, 1 <= a <= n /\ is_open solution n k a ra /\ r <= ra /\
                      vi !! a = Some ra).
Proof using Hcyc Hlen.
  intros Htk Hn Hpat.
  assert (true = true -> topk2_correct topk2 /\ 1 <= n) as Htop by done.
  split.
  - intros k Hk.
    destruct (run_loop_inv true k Htop ltac:(lia))
      as (s & Hrun & _ & _ & _ & Hst).
    destruct (Hst eq_refl) as (Hsl & Hs0 & Hsp & _).
    exists s. split; [done|]. split; [done|]. intros p Hp.
    exists (slot solution n k p). split; [by apply Hsp|].
    apply slot_sign. lia.
  - destruct (position_embedding_result true Htop Hpat)
      as (s & pos & Hrun & Hinv & Hres).
    pose proof (final_ranks s (or_introl Hinv)) as Hrank.
    destruct Hinv as (_ & _ & _ & Hst).
    destruct (Hst eq_refl) as (_ & _ & _ & _ & Htp).
    eexists pos, _, (top2 s). split; [exact Hres|].
    intros k Hk. destruct k as [|j]; [lia|].
    destruct (Htp j ltac:(lia)) as (sj & [a b] & Hrj & Htj & Hlook).
    destruct (run_loop_inv true (S j) Htop ltac:(lia))
      as (s' & Hrun' & _ & _ & _ & Hst').
    assert (s' = sj) as -> by congruence.
    destruct (Hst' eq_refl) as (Hsl & Hs0 & Hsp & _).
    destruct (proj1 (Htk (stacks sj)) ltac:(lia)) as (t' & Ht' & Htop2).
    assert (t' = (a, b)) as -> by congruence.
    destruct (top2_of_stacks (S j) (stacks sj) a b ltac:(lia) Hsl Hs0 Hsp Htop2)
      as [Hzero Hrecent].
    exists a, b. split; [done|]. split; [done|].
    intros p r Hp Ho.
    destruct (Hrecent p r Hp Ho) as (ra & Ha & Hoa & Hle).
    exists ra. split; [done|]. split; [done|]. split; [done|].
    pose proof Hoa as (Hra & Hora & _).
    assert (ra <> 2 * n + 1) as Hne.
    { intros ->. rewrite <- Hlen, visit_depot in Hora. lia. }
    rewrite <- Hora, list_lookup_fmap, Hrank by lia. simpl.
    by rewrite Nat.mod_small by lia.
Qed.

End Simulation.

(* --------------------------------------------------------------------- *)
(** *** [topk2_sorted] implements [topk(2)[1]] *)

#[global] Instance val_ge_total : Total val_ge.
Proof.
  intros p q. unfold val_ge.
  destruct (Qlt_le_dec p.2 q.2); [right; by left|].
  destruct (Qlt_le_dec q.2 p.2); [left; by left|].
  destruct (le_ge_dec p.1 q.1).
  - left. right. split; [lra|done].
  - right. right. split; [lra|done].
Qed.

#[global] Instance val_ge_trans : Transitive val_ge.
Proof.
  intros p q r. unfold val_ge.
  intros [H1|[H1 I1]] [H2|[H2 I2]]; try (left; lra).
  right. split; [lra|lia].
Qed.

Lemma val_ge_le p q : val_ge p q -> (q.2 <= p.2)%Q.
Proof. intros [H|[H _]]; lra. Qed.

Lemma topk2_sorted_correct : topk2_correct topk2_sorted.
Proof.
  intros l. unfold topk2_sorted.
  pose proof (merge_sort_Permutation val_ge (indexed l)) as Hperm.
  pose proof (StronglySorted_merge_sort val_ge (indexed l)) as Hsort.
  assert (length (merge_sort val_ge (indexed l)) = length l) as Hlen.
  { rewrite (Permutation_length Hperm). unfold indexed. by rewrite length_imap. }
  assert (NoDup (merge_sort val_ge (indexed l)).*1) as Hnd.
  { rewrite Hperm, indexed_fst. apply NoDup_seq. }
  destruct (merge_sort val_ge (indexed l)) as [|[a x] [|[b y] rest]];
    simpl in *; (split; [intros; try lia | intros; try lia; try done]).
  exists (a, b). split; [done|].
  assert (forall k z, (k, z) ∈ (a, x) :: (b, y) :: rest <-> l !! k = Some z) as Hin.
  { intros k z. rewrite Hperm. apply elem_of_indexed. }
  apply StronglySorted_inv in Hsort as [Hsort Hx].
  apply StronglySorted_inv in Hsort as [_ Hy].
  apply Forall_cons in Hx as [Hxy _]. apply val_ge_le in Hxy.
  split; simpl.
  - apply NoDup_cons in Hnd as [Hnot _]. intros ->. apply Hnot. by left.
  - exists x, y. split; [apply Hin; by left|].
    split; [apply Hin; right; by left|]. split; [exact Hxy|].
    intros k z Hka Hkb Hk. apply Hin in Hk.
    apply elem_of_cons in Hk as [[=]|Hk]; [done|].
    apply elem_of_cons in Hk as [[=]|Hk]; [done|].
    rewrite Forall_forall in Hy. apply (val_ge_le _ _ (Hy (k, z) Hk)).
Qed.

(* --------------------------------------------------------------------- *)
(** *** Concrete tours *)

(** The tour 0 -> 1 -> 2 -> 4 -> 3 -> 0: ranks 1, 2, 4, 3 for the nodes
    1, 2, 3, 4, and 0 for the depot. *)
Lemma visit_index_is_rank_mod_length_witness :
  exists pos t2,
    _position_embedding (seq 0 5) topk2_sorted tour5 true
      = Some (pos, [0; 1; 2; 4; 3], t2) /\
    NoDup [0; 1; 2; 4; 3].
Proof.
  destruct (visit_index_is_rank_mod_length (seq 0 5) topk2_sorted tour5 2
              tour5_single_cycle eq_refl true
              (fun _ => conj topk2_sorted_correct (le_n_S 0 1 (Nat.le_0_l 1)))
              eq_refl)
    as (s & pos & vi & t2 & _ & _ & Hres & _ & Hl & _ & _ & Hnd & _).
  exists pos, t2.
  assert (vi = [0; 1; 2; 4; 3]) as <-; [|by split].
  vm_compute in Hres. by injection Hres as _ <- _.
Defined.

(** The depot's entry of the returned visit index is 0, outside
    [1..2n+1]. *)
Lemma visit_index_depot_entry_is_zero :
  single_cycle tour3 /\
  _position_embedding (seq 0 3) topk2_sorted tour3 false
    = Some ([0; 1; 2], [0; 1; 2], None) /\
  ~ (forall x, x ∈ [0; 1; 2] -> 1 <= x <= 3).
Proof.
  split; [apply tour3_single_cycle|]. split; [reflexivity|].
  intros H. specialize (H 0 ltac:(by left)). lia.
Qed.

Lemma stack_slots_signs_and_top2_witness :
  exists pos vi t2,
    _position_embedding (seq 0 5) topk2_sorted tour5 true
      = Some (pos, vi, Some t2) /\
    forall k, 1 <= k <= 5 ->
      exists a b, t2 !! orbit tour5 k = Some (a, b) /\
        ((a = 0 \/ b = 0) <-> ~ two_open tour5 2 k).
Proof.
  destruct (stack_slots_signs_and_top2 (seq 0 5) topk2_sorted tour5 2
              tour5_single_cycle eq_refl topk2_sorted_correct
              (le_n_S 0 1 (Nat.le_0_l 1)) eq_refl)
    as [_ (pos & vi & t2 & Hres & Hk)].
  exists pos, vi, t2. split; [exact Hres|].
  intros k Hk'. destruct (Hk k Hk') as (a & b & Hl & Hz & _).
  exists a, b. by split.
Defined.

(** The simulation on the tour 0 -> 1 -> 2 -> 4 -> 3 -> 0.  After the
    visits of node 3 and of the depot both pickup slots hold [-0.01]; the
    second index is then the lower one of the two. *)
Example top2_tour5 :
  _position_embedding (seq 0 5) topk2_sorted tour5 true
  = Some ([0; 1; 2; 4; 3], [0; 1; 2; 4; 3],
          Some [(0, 1); (1, 0); (2, 1); (0, 1); (1, 0)]).
Proof. reflexivity. Qed.

End PositionalState.

(* ===================================================================== *)
(** ** Tensor shapes under [squeeze] *)
(* ===================================================================== *)

Module Shapes.

Definition shape := list nat.

(** [t.squeeze()]: every dimension of size 1 is dropped. *)
Definition squeeze (s : shape) : shape :=
  filter (fun d => d <> 1) s.

(** [t.squeeze(-1)]: the last dimension is dropped if its size is 1. *)
Definition squeeze_last (s : shape) : shape :=
  match reverse s with
  | 1 :: r => reverse r
  | _ => s
  end.

(** [nn.Linear] replaces the size of the last dimension. *)
Definition linear (out_features : nat) (s : shape) : shape :=
  match reverse s with
  | _ :: r => reverse (out_features :: r)
  | [] => []
  end.

(** [MLP.forward] with [output_dim = 1]: three linear layers, then
    [squeeze(-1)]. *)
Definition MLP_forward (feed_forward_dim embedding_dim : nat) (s : shape)
  : shape :=
  squeeze_last (linear 1 (linear embedding_dim (linear feed_forward_dim s))).

(** Shape returned by [NodePairRemovalDecoder.forward] (variants [origin],
    [glitch], [update1]): the aggregator runs on
    [(batch_size, graph_size/2, 2 * n_heads + 4)], then [.squeeze()]. *)
Definition removal_decoder_shape (batch_size half n_heads : nat) : shape :=
  squeeze (MLP_forward 32 32 [batch_size; half; 2 * n_heads + 4]).

(** Shape of [action_removal_table] in [NNSDecoder.forward]: one more
    [.squeeze()]; [tanh] and the scaling keep the shape. *)
Definition action_removal_table_shape (batch_size half n_heads : nat) : shape :=
  squeeze (removal_decoder_shape batch_size half n_heads).

(** Shape returned by [NodePairReinsertionDecoder.forward]: the aggregator
    runs on [(batch_size, graph_size+1, graph_size+1, 4 * n_heads)]. *)
Definition reinsertion_decoder_shape (batch_size nodes n_heads : nat) : shape :=
  squeeze (MLP_forward 32 32 [batch_size; nodes; nodes; 4 * n_heads]).

(** [t[arange, idx] = v] and [t.gather(1, idx)] need a second dimension. *)
Definition has_dim1 (s : shape) : bool :=
  match s with
  | _ :: _ :: _ => true
  | _ => false
  end.

(** [t[mask] = v] with a boolean mask: the mask's shape has to be a prefix
    of the tensor's shape. *)
Definition mask_applies (mask t : shape) : bool :=
  bool_decide (take (length mask) t = mask).

Lemma squeeze_idemp s : squeeze (squeeze s) = squeeze s.
Proof.
  unfold squeeze. induction s as [|d s IH]; [done|].
  destruct (decide (d <> 1)) as [Hd|Hd].
  - rewrite (filter_cons_True _ d s Hd), (filter_cons_True _ d _ Hd).
    f_equal. exact IH.
  - by rewrite (filter_cons_False _ d s Hd).
Qed.

Lemma removal_decoder_shape_eq batch_size half n_heads :
  removal_decoder_shape batch_size half n_heads = squeeze [batch_size; half].
Proof. reflexivity. Qed.

Lemma reinsertion_decoder_shape_eq batch_size nodes n_heads :
  reinsertion_decoder_shape batch_size nodes n_heads
  = squeeze [batch_size; nodes; nodes].
Proof. reflexivity. Qed.

(** With at least two instances and two pairs, both tables keep the batch
    dimension. *)
Lemma shapes_regular batch_size half n_heads :
  batch_size <> 1 -> half <> 1 -> 2 * half + 1 <> 1 ->
  action_removal_table_shape batch_size half n_heads = [batch_size; half] /\
  reinsertion_decoder_shape batch_size (2 * half + 1) n_heads
  = [batch_size; 2 * half + 1; 2 * half + 1].
Proof.
  intros HB Hh HL. unfold action_removal_table_shape.
  rewrite removal_decoder_shape_eq, squeeze_idemp, reinsertion_decoder_shape_eq.
  unfold squeeze. cbn -[Nat.mul Nat.add].
  repeat case_decide; done.
Qed.

End Shapes.

(* ===================================================================== *)
(** ** One decoder step: [NNSDecoder.forward] *)
(* ===================================================================== *)

Module Decoder.
Import Tour.

(** *** Exceptions *)

Inductive error := AssertionError | IndexError | RuntimeError.

Inductive result (A : Type) : Type :=
| Ok (a : A)
| Raise (e : error).
Arguments Ok {A} a.
Arguments Raise {A} e.

#[global] Instance result_ret : MRet result := fun A a => Ok a.
#[global] Instance result_bind : MBind result := fun A B f m =>
  match m with
  | Ok a => f a
  | Raise e => Raise e
  end.

Definition of_option {A} (e : error) (o : option A) : result A :=
  match o with
  | Some a => Ok a
  | None => Raise e
  end.

Definition lookup_or_raise {A} (l : list A) (i : nat) : result A :=
  of_option IndexError (l !! i).

(** *** Floating point

    Floats are modelled by rationals with exact [+], [-], [*], [/] and
    comparisons.  The library functions are parameters; [FloatSpec] lists
    what is assumed of them: [exp] is a function of the value, [exp 0 = 1],
    [exp] is never negative and underflows to exactly 0 below -104 (the
    smallest positive float32 is about [exp (-103.3)]), and [tanh] stays
    in [[-1, 1]]. *)

Class Float := {
  fexp : Q -> Q;
  flog : Q -> Q;
  ftanh : Q -> Q;
  (** Euclidean norm of a vector with two components. *)
  fnorm : Q * Q -> Q
}.

Class FloatSpec (F : Float) : Prop := {
  fexp_proper : Proper (Qeq ==> Qeq) fexp;
  fexp_0 : (fexp 0 == 1)%Q;
  fexp_nonneg : forall x, (0 <= fexp x)%Q;
  fexp_underflow : forall x, (x <= -104)%Q -> (fexp x == 0)%Q;
  ftanh_range : forall x, (-1 <= ftanh x <= 1)%Q
}.

(** The literal [-1e20]. *)
Definition neg_huge : Q := (-100000000000000000000)%Q.

(** The largest logit range for which [-1e20] stays 104 below every
    bounded logit. *)
Definition v_range_max : Q := 99999999999999999896%Q.

Definition qmax (a b : Q) : Q := if Qlt_le_dec a b then b else a.

Definition qsum (l : list Q) : Q := foldr Qplus 0%Q l.

Section Numerics.
Context {F : Float}.

(** Largest entry of a row. *)
Definition row_max (row : list Q) : Q :=
  match row with
  | [] => 0%Q
  | x :: r => foldl qmax x r
  end.

(** [F.softmax(row, dim=-1)] and [F.log_softmax(row, dim=-1)]: the largest
    entry is subtracted before exponentiating. *)
Definition exps (row : list Q) : list Q :=
  map (fun x => fexp (x - row_max row)%Q) row.

Definition softmax (row : list Q) : list Q :=
  map (fun e => (e / qsum (exps row))%Q) (exps row).

Definition log_softmax (row : list Q) : list Q :=
  map (fun x => (x - row_max row - flog (qsum (exps row)))%Q) row.

End Numerics.

(** [weights.multinomial(1)] on one row, driven by a uniform random number
    [u] in [[0, 1)]: the index at which the running sum of the weights first
    exceeds [u] times their total.  An entry of weight 0 is never drawn; a
    negative entry or a total that is not positive raises. *)
Fixpoint pick (w : list Q) (t : Q) (i : nat) : option nat :=
  match w with
  | [] => None
  | x :: w' => if Qlt_le_dec t x then Some i else pick w' (t - x)%Q (S i)
  end.

Definition multinomial (w : list Q) (u : Q) : result nat :=
  if existsb (fun x => negb (Qle_bool 0 x)) w then Raise RuntimeError
  else if Qle_bool (qsum w) 0 then Raise RuntimeError
  else of_option RuntimeError (pick w (u * qsum w)%Q 0).

(** [row.max(-1)[1]]: the index of the largest entry (the first one among
    equal entries). *)
Fixpoint argmax_from (best : nat) (bv : Q) (i : nat) (l : list Q) : nat :=
  match l with
  | [] => best
  | x :: l' =>
      if Qlt_le_dec bv x then argmax_from i x (S i) l'
      else argmax_from best bv (S i) l'
  end.

Definition argmax (row : list Q) : result nat :=
  match row with
  | [] => Raise IndexError
  | x :: r => Ok (argmax_from 0 x 1 r)
  end.

(** *** Tensors of the step *)

(** A float tensor of rank 0, 1 or 2. *)
Inductive table :=
| T0 (x : Q)
| T1 (row : list Q)
| T2 (rows : list (list Q)).

(** The values [rows] (one row per instance) seen through the shape [s]. *)
Definition view_as (s : Shapes.shape) (rows : list (list Q)) : table :=
  match s with
  | [] => T0 (hd 0%Q (concat rows))
  | [_] => T1 (concat rows)
  | _ => T2 rows
  end.

Definition table_map (f : Q -> Q) (t : table) : table :=
  match t with
  | T0 x => T0 (f x)
  | T1 row => T1 (map f row)
  | T2 rows => T2 (map (map f) rows)
  end.

(** An operation along the last dimension ([dim=-1]). *)
Definition table_rows_map (f : list Q -> list Q) (t : table) : table :=
  match t with
  | T0 x => T0 (hd 0%Q (f [x]))
  | T1 row => T1 (f row)
  | T2 rows => T2 (map f rows)
  end.

(** An index tensor of shape [(k, 1)] or [(k,)]. *)
Inductive index :=
| Column (v : list nat)
| Flat (v : list nat).

Definition index_values (ix : index) : list nat :=
  match ix with
  | Column v => v
  | Flat v => v
  end.

(** Broadcasting of an index tensor against [torch.arange(batch_size)]: a
    single index is used for every instance, any other number of indices
    has to be [batch_size]. *)
Definition broadcast_index (batch_size : nat) (idx : list nat)
  : result (list nat) :=
  if decide (length idx = batch_size) then Ok idx
  else match idx with
       | [i] => Ok (replicate batch_size i)
       | _ => Raise IndexError
       end.

(** [t[torch.arange(batch_size), idx] = v]. *)
Definition index_put (batch_size : nat) (t : table) (idx : list nat) (v : Q)
  : result table :=
  match t with
  | T2 rows =>
      if decide (length rows = batch_size) then
        idx' ← broadcast_index batch_size idx;
        rows' ← mapM (fun ri : list Q * nat =>
                        if ri.2 <? length ri.1
                        then Ok (<[ri.2 := v]> ri.1)
                        else Raise IndexError)
                     (zip rows idx');
        Ok (T2 rows')
      else Raise IndexError
  | _ => Raise IndexError
  end.

(** [t.multinomial(1)], one uniform number per row. *)
Definition table_multinomial (t : table) (us : list Q) : result index :=
  match t with
  | T2 rows =>
      v ← mapM (fun ru : list Q * Q => multinomial ru.1 ru.2) (zip rows us);
      Ok (Column v)
  | T1 row => i ← multinomial row (hd 0%Q us); Ok (Flat [i])
  | T0 _ => Raise RuntimeError
  end.

(** [t.gather(1, ix)]. *)
Definition table_gather (t : table) (ix : index) : result (list Q) :=
  match t, ix with
  | T2 rows, Column v =>
      if length v <=? length rows then
        mapM (fun ri : list Q * nat => lookup_or_raise ri.1 ri.2)
             (zip rows v)
      else Raise RuntimeError
  | T2 _, Flat _ => Raise RuntimeError
  | _, _ => Raise IndexError
  end.

(** A log-likelihood: [torch.tensor(0)] or one value per instance. *)
Inductive loglik :=
| LL0
| LL (v : list Q).

Definition loglik_add (a b : loglik) : loglik :=
  match a, b with
  | LL0, _ => b
  | _, LL0 => a
  | LL x, LL y => LL (zip_with Qplus x y)
  end.

(** *** Configuration, inputs, random numbers *)

Record config := {
  TYPE_REMOVAL : string;
  TYPE_REINSERTION : string;
  training : bool;
  v_range : Q;
  n_heads : nat
}.

(** An action [(removed pair, insertion anchor of the pickup, insertion
    anchor of the delivery)]. *)
Abbreviation action := (nat * nat * nat)%type.

Definition act_pair (a : action) : nat := a.1.1.
Definition act_p (a : action) : nat := a.1.2.
Definition act_d (a : action) : nat := a.2.

Record step_input := {
  batch_size : nat;
  graph_size_plus1 : nat;
  solution : list (list nat);
  x_in : list (list (Q * Q));
  pre_action : option (list action);
  fixed_action : option (list action);
  (** The aggregator output inside [self.compater_removal(h_hat, solution,
      selection_recent)], one row of [graph_size_plus1 // 2] scores per
      instance. *)
  compater_removal : list (list Q);
  (** The aggregator output inside [self.compater_reinsertion(h_hat,
      pos_pickup, pos_delivery, solution)], one grid per instance. *)
  compater_reinsertion : list nat -> list nat -> list (list (list Q));
  (** [problem.get_swap_mask(action_removal + 1, visit_index, top2)]. *)
  get_swap_mask : list nat -> list (list (list bool))
}.

(** The random numbers one call consumes. *)
Record randomness := {
  (** [torch.rand(batch_size, graph_size_plus1 // 2)] *)
  rand_removal : list (list Q);
  (** the draws behind the [multinomial(1)] of each stage *)
  u_removal : list Q;
  u_reinsertion : list Q;
  (** [torch.rand(batch_size, 1)], compared with 0.1 *)
  eps_removal : list Q;
  eps_reinsertion : list Q
}.

(** [torch.where(eps < 0.1, a, b)]. *)
Definition where_ (eps : list Q) (a b : list nat) : list nat :=
  zip_with (fun e (ab : nat * nat) => if Qlt_le_dec e (1 # 10) then ab.1 else ab.2)
           eps (zip a b).

(** [t.max(-1)[1].unsqueeze(1)]. *)
Definition table_argmax (t : table) : result index :=
  match t with
  | T2 rows => v ← mapM argmax rows; Ok (Column v)
  | _ => Raise IndexError
  end.

Definition grid : Type := list (list Q).

(** [table[mask] = -1e20], element by element. *)
Definition mask_fill (g : list grid) (m : list (list (list bool))) : list grid :=
  zip_with (zip_with (zip_with (fun x (b : bool) => if b then neg_huge else x)))
           g m.

(** [torch.ones(batch_size, graph_size_plus1, graph_size_plus1)]. *)
Definition ones (B L : nat) : list grid :=
  replicate B (replicate L (replicate L 1%Q)).

(** [t.expand(.., n, ..)] along one dimension: a dimension of size 1 is
    repeated [n] times, any other size has to be [n]. *)
Definition expand_dim {A} (n : nat) (l : list A) : result (list A) :=
  if decide (length l = n) then Ok l
  else match l with
       | [x] => Ok (replicate n x)
       | _ => Raise RuntimeError
       end.

(** [mask.expand(batch_size, graph_size_plus1, graph_size_plus1)]. *)
Definition expand_mask (B L : nat) (m : list (list (list bool)))
  : result (list (list (list bool))) :=
  m' ← mapM (fun g => g' ← mapM (expand_dim L) g; expand_dim L g') m;
  expand_dim B m'.

Section Forward.
Context {F : Float}.
Variable cfg : config.
Variable inp : step_input.
Variable rnd : randomness.

Definition half_pos : nat := (graph_size_plus1 inp - 1) / 2.

(** **** Action 1: removal *)

(** [TYPE_REMOVAL == 'NNS']: the bounded logits, the pair of the previous
    action overwritten by [-1e20]. *)
Definition action_removal_table : result table :=
  let t :=
    table_map (fun x => (ftanh x * v_range cfg)%Q)
      (view_as (Shapes.action_removal_table_shape
                  (batch_size inp) (graph_size_plus1 inp / 2) (n_heads cfg))
               (compater_removal inp)) in
  match pre_action inp with
  | Some pa =>
      a00 ← lookup_or_raise pa 0;
      if 0 <? act_pair a00
      then index_put (batch_size inp) t (map act_pair pa) neg_huge
      else Ok t
  | None => Ok t
  end.

(** Distance between two points, [(a - b).norm(p=2)]. *)
Definition dist (a b : Q * Q) : Q := fnorm ((a.1 - b.1)%Q, (a.2 - b.2)%Q).

(** [TYPE_REMOVAL == 'greedy']: the length saved by taking node [i] out. *)
Definition removal_cost (xs : list (Q * Q)) (sol : list nat) (i : nat)
  : result Q :=
  d_i ← lookup_or_raise xs i;
  next ← lookup_or_raise sol i;
  d_i_next ← lookup_or_raise xs next;
  prev ← lookup_or_raise (argsort sol) i;
  d_i_pre ← lookup_or_raise xs prev;
  Ok (dist d_i_pre d_i + dist d_i d_i_next - dist d_i_pre d_i_next)%Q.

Definition greedy_removal_row (xs_sol : list (Q * Q) * list nat)
  : result (list Q) :=
  let L := graph_size_plus1 inp in
  cost ← mapM (removal_cost xs_sol.1 xs_sol.2) (seq 0 L);
  let cost_ := drop 1 cost in
  let pickups := take (L / 2) cost_ in
  let deliveries := drop (L / 2) cost_ in
  if decide (length pickups = length deliveries)
  then Ok (zip_with Qplus pickups deliveries)
  else Raise RuntimeError.

Record removal_tables := {
  log_ll_removal : option table;
  probs_removal : table;
  probs_removal_random : option table
}.

Definition removal_tables_of : result removal_tables :=
  if String.eqb (TYPE_REMOVAL cfg) "NNS" then
    t ← action_removal_table;
    Ok {| log_ll_removal :=
            if training cfg then Some (table_rows_map log_softmax t) else None;
          probs_removal := table_rows_map softmax t;
          probs_removal_random := None |}
  else if String.eqb (TYPE_REMOVAL cfg) "random" then
    Ok {| log_ll_removal := None;
          probs_removal := T2 (rand_removal rnd);
          probs_removal_random := None |}
  else if String.eqb (TYPE_REMOVAL cfg) "greedy" then
    rows ← mapM greedy_removal_row (zip (x_in inp) (solution inp));
    Ok {| log_ll_removal := None;
          probs_removal := T2 rows;
          probs_removal_random := Some (T2 (rand_removal rnd)) |}
  else Raise AssertionError.

Definition action_removal_of (rt : removal_tables) : result index :=
  match fixed_action inp with
  | Some fa => Ok (Column (map act_pair fa))
  | None =>
      if String.eqb (TYPE_REMOVAL cfg) "greedy" then
        match probs_removal_random rt with
        | Some pr =>
            r ← table_multinomial pr (u_removal rnd);
            g ← table_argmax (probs_removal rt);
            Ok (Column (where_ (eps_removal rnd) (index_values r) (index_values g)))
        | None => Raise RuntimeError
        end
      else if String.eqb (TYPE_REMOVAL cfg) "NNS"
              || String.eqb (TYPE_REMOVAL cfg) "random" then
        table_multinomial (probs_removal rt) (u_removal rnd)
      else Raise AssertionError
  end.

Definition selected_log_ll_action1 (rt : removal_tables) (action_removal : index)
  : result loglik :=
  if training cfg && String.eqb (TYPE_REMOVAL cfg) "NNS" then
    match log_ll_removal rt with
    | Some t => v ← table_gather t action_removal; Ok (LL v)
    | None => Raise RuntimeError
    end
  else Ok LL0.

(** **** Action 2: reinsertion *)

(** [rec.scatter_(1, i, v)] on one instance. *)
Definition scatter (l : list nat) (i v : nat) : result (list nat) :=
  if i <? length l then Ok (<[i := v]> l) else Raise RuntimeError.

(** The detour of putting the point [pt] between node [i] and its
    successor in [rec_new]. *)
Definition insert_cost (xs : list (Q * Q)) (rec_new : list nat) (pt : Q * Q)
    (i : nat) : result Q :=
  d_i ← lookup_or_raise xs i;
  next ← lookup_or_raise rec_new i;
  d_i_next ← lookup_or_raise xs next;
  Ok (dist pt d_i + dist pt d_i_next - dist d_i d_i_next)%Q.

(** The epsilon-greedy branch: the pair is taken out of the tour, then
    every cell is scored by minus the two detours. *)
Definition greedy_reinsertion_grid
    (arg : (list (Q * Q) * list nat) * (nat * nat)) : result grid :=
  let L := graph_size_plus1 inp in
  let xs := arg.1.1 in
  let pos_pickup := arg.2.1 in
  let pos_delivery := arg.2.2 in
  let rec_new := arg.1.2 in
  pre_pairfirst ← lookup_or_raise (argsort rec_new) pos_pickup;
  post_pairfirst ← lookup_or_raise rec_new pos_pickup;
  rec_new ← scatter rec_new pre_pairfirst post_pairfirst;
  rec_new ← scatter rec_new pos_pickup pos_pickup;
  pre_pairsecond ← lookup_or_raise (argsort rec_new) pos_delivery;
  post_pairsecond ← lookup_or_raise rec_new pos_delivery;
  rec_new ← scatter rec_new pre_pairsecond post_pairsecond;
  d_pick ← lookup_or_raise xs pos_pickup;
  d_deli ← lookup_or_raise xs pos_delivery;
  cost_insert_p ← mapM (insert_cost xs rec_new d_pick) (seq 0 L);
  cost_insert_d ← mapM (insert_cost xs rec_new d_deli) (seq 0 L);
  Ok (map (fun cp => map (fun cd => (- (cp + cd))%Q) cost_insert_d)
          cost_insert_p).

Record reinsertion_tables := {
  table_shape : Shapes.shape;
  action_reinsertion_table : list grid;
  probs_reinsertion_random : option (list (list Q))
}.

Definition reinsertion_tables_of (action_removal : index)
    (mask_table : list (list (list bool))) : result reinsertion_tables :=
  let B := batch_size inp in
  let L := graph_size_plus1 inp in
  let pos_pickup := map S (index_values action_removal) in
  let pos_delivery := map (fun p => p + half_pos) pos_pickup in
  if String.eqb (TYPE_REINSERTION cfg) "NNS" then
    Ok {| table_shape := Shapes.reinsertion_decoder_shape B L (n_heads cfg);
          action_reinsertion_table :=
            map (map (map (fun x => (ftanh x * v_range cfg)%Q)))
                (compater_reinsertion inp pos_pickup pos_delivery);
          probs_reinsertion_random := None |}
  else if String.eqb (TYPE_REINSERTION cfg) "random" then
    Ok {| table_shape := [B; L; L];
          action_reinsertion_table := ones B L;
          probs_reinsertion_random := None |}
  else if String.eqb (TYPE_REMOVAL cfg) "greedy" then
    match action_removal with
    | Column _ =>
        grids ← mapM greedy_reinsertion_grid
                  (zip (zip (x_in inp) (solution inp))
                       (zip pos_pickup pos_delivery));
        Ok {| table_shape := [B; L; L];
              action_reinsertion_table := grids;
              probs_reinsertion_random :=
                Some (map (fun g => softmax (concat g))
                          (mask_fill (ones B L) mask_table)) |}
    | Flat _ => Raise RuntimeError
    end
  else Raise AssertionError.

(** [action_reinsertion_table[mask_table] = -1e20], then
    [.view(batch_size, -1)]: one row of logits per instance, the cell
    [(p, d)] at position [p * graph_size_plus1 + d]. *)
Definition masked_table (tabs : reinsertion_tables)
    (mask_table : list (list (list bool))) : result (list (list Q)) :=
  let B := batch_size inp in
  let L := graph_size_plus1 inp in
  if Shapes.mask_applies [B; L; L] (table_shape tabs)
  then Ok (map (fun g => concat g)
               (mask_fill (action_reinsertion_table tabs) mask_table))
  else Raise IndexError.

Definition sample_rows (probs : list (list Q)) (us : list Q)
  : result (list nat) :=
  mapM (fun ru : list Q * Q => multinomial ru.1 ru.2) (zip probs us).

Definition pair_index_of (tabs : reinsertion_tables)
    (probs_reinsertion : list (list Q)) : result (list nat) :=
  let L := graph_size_plus1 inp in
  match fixed_action inp with
  | Some fa => Ok (map (fun a => act_p a * L + act_d a) fa)
  | None =>
      if String.eqb (TYPE_REINSERTION cfg) "greedy" then
        match probs_reinsertion_random tabs with
        | Some pr =>
            r ← sample_rows pr (u_reinsertion rnd);
            g ← mapM argmax probs_reinsertion;
            Ok (where_ (eps_reinsertion rnd) r g)
        | None => Raise RuntimeError
        end
      else if String.eqb (TYPE_REINSERTION cfg) "NNS"
              || String.eqb (TYPE_REINSERTION cfg) "random" then
        sample_rows probs_reinsertion (u_reinsertion rnd)
      else Raise AssertionError
  end.

(** The action: [fixed_action] itself, or the concatenation of the removed
    pair with [pair_index // graph_size_plus1] and
    [pair_index % graph_size_plus1]. *)
Definition action_of (action_removal : index) (pair_index : list nat)
  : result (list action) :=
  let L := graph_size_plus1 inp in
  match fixed_action inp with
  | Some fa => Ok fa
  | None =>
      let v := index_values action_removal in
      if decide (length v = batch_size inp /\
                 length pair_index = batch_size inp)
      then Ok (zip_with (fun a c => (a, c / L, c mod L)) v pair_index)
      else Raise RuntimeError
  end.

Definition selected_log_ll_action2 (log_ll_reinsertion : list (list Q))
    (pair_index : list nat) : result loglik :=
  if training cfg && String.eqb (TYPE_REINSERTION cfg) "NNS" then
    if length pair_index <=? length log_ll_reinsertion then
      v ← mapM (fun ri : list Q * nat => lookup_or_raise ri.1 ri.2)
              (zip log_ll_reinsertion pair_index);
      Ok (LL v)
    else Raise RuntimeError
  else Ok LL0.

(** The probabilities of the reinsertion cells, once a pair is removed. *)
Definition probs_reinsertion_of (action_removal : index)
  : result (list (list Q)) :=
  mask_table ← expand_mask (batch_size inp) (graph_size_plus1 inp)
                 (get_swap_mask inp (map S (index_values action_removal)));
  tabs ← reinsertion_tables_of action_removal mask_table;
  flat ← masked_table tabs mask_table;
  Ok (map softmax flat).

(** [NNSDecoder.forward]: the action and its log-likelihood (the entropy,
    the third component of the source, is left out). *)
Definition forward : result (list action * loglik) :=
  let B := batch_size inp in
  let L := graph_size_plus1 inp in
  rt ← removal_tables_of;
  action_removal ← action_removal_of rt;
  ll1 ← selected_log_ll_action1 rt action_removal;
  mask_table ← expand_mask B L
                 (get_swap_mask inp (map S (index_values action_removal)));
  tabs ← reinsertion_tables_of action_removal mask_table;
  flat ← masked_table tabs mask_table;
  let log_ll_reinsertion := map log_softmax flat in
  let probs_reinsertion := map softmax flat in
  pair_index ← pair_index_of tabs probs_reinsertion;
  action ← action_of action_removal pair_index;
  ll2 ← selected_log_ll_action2 log_ll_reinsertion pair_index;
  Ok (action, loglik_add ll1 ll2).

End Forward.

(* --------------------------------------------------------------------- *)
(** *** A rational stand-in for the float functions

    Piecewise rational functions with the properties of [FloatSpec]; they
    serve to run the step on concrete inputs. *)

Definition coarse_exp (x : Q) : Q :=
  if Qlt_le_dec (-104) x then
    if Qlt_le_dec x 0 then (1 / (1 - x))%Q else (1 + x)%Q
  else 0%Q.

Definition coarse_log (y : Q) : Q :=
  if Qlt_le_dec 0 y then
    if Qlt_le_dec y 1 then (1 - 1 / y)%Q else (y - 1)%Q
  else neg_huge.

Definition coarse_tanh (x : Q) : Q :=
  if Qlt_le_dec x 0 then (x / (1 - x))%Q else (x / (1 + x))%Q.

(** The Euclidean norm, rounded down to six decimals. *)
Definition coarse_norm (v : Q * Q) : Q :=
  (inject_Z (Z.sqrt (Qfloor ((v.1 * v.1 + v.2 * v.2) * 1000000000000)))
   / 1000000)%Q.

#[global] Instance coarse_float : Float := {|
  fexp := coarse_exp;
  flog := coarse_log;
  ftanh := coarse_tanh;
  fnorm := coarse_norm
|}.

Lemma coarse_float_spec : FloatSpec coarse_float.
Proof.
  split; simpl.
  - intros x y E. unfold coarse_exp.
    destruct (Qlt_le_dec (-104) x), (Qlt_le_dec (-104) y); try lra;
      try reflexivity.
    destruct (Qlt_le_dec x 0), (Qlt_le_dec y 0); try lra;
      rewrite E; reflexivity.
  - reflexivity.
  - intros x. unfold coarse_exp.
    destruct (Qlt_le_dec (-104) x); [|lra].
    destruct (Qlt_le_dec x 0); [|lra].
    apply Qle_shift_div_l; lra.
  - intros x Hx. unfold coarse_exp.
    destruct (Qlt_le_dec (-104) x); [lra|reflexivity].
  - intros x. unfold coarse_tanh. destruct (Qlt_le_dec x 0).
    + split; [apply Qle_shift_div_l | apply Qle_shift_div_r]; lra.
    + split; [apply Qle_shift_div_l | apply Qle_shift_div_r]; lra.
Qed.

(* --------------------------------------------------------------------- *)
(** *** The exception monad *)

Lemma bind_Ok {A B} (m : result A) (k : A -> result B) r :
  m ≫= k = Ok r <-> exists a, m = Ok a /\ k a = Ok r.
Proof.
  destruct m as [a|e]; simpl.
  - split; [intros H; by exists a | by intros (a' & [= <-] & H)].
  - split; [done | by intros (a' & [=] & _)].
Qed.

Lemma mapM_Ok {A B} (f : A -> result B) l k :
  mapM f l = Ok k <-> Forall2 (fun x y => f x = Ok y) l k.
Proof.
  revert k. induction l as [|x l IH]; intros k; simpl.
  - split; [intros [= <-]; constructor | by inversion 1].
  - split.
    + intros H. apply bind_Ok in H as (y & Hy & H).
      apply bind_Ok in H as (k' & Hk' & [= <-]).
      constructor; [done|]. by apply IH.
    + inversion 1 as [|? y ? k' Hy Hk']; subst.
      apply bind_Ok. exists y. split; [done|].
      apply bind_Ok. exists k'. split; [by apply IH|done].
Qed.

Lemma mapM_Ok_total {A B} (f : A -> result B) l :
  (forall x, x ∈ l -> exists y, f x = Ok y) -> exists k, mapM f l = Ok k.
Proof.
  induction l as [|x l IH]; intros H; simpl; [by eexists|].
  destruct (H x ltac:(by left)) as [y Hy].
  destruct IH as [k Hk]; [intros; apply H; by right|].
  exists (y :: k). rewrite Hy. simpl. rewrite Hk. done.
Qed.

(** Step through a chain of binds in a hypothesis. *)
Ltac inv_bind H :=
  repeat match type of H with
  | _ ≫= _ = Ok _ =>
      let a := fresh "a" in let Ha := fresh "Ha" in
      apply bind_Ok in H as (a & Ha & H)
  end.

(* --------------------------------------------------------------------- *)
(** *** Rows: maximum, sums, softmax *)

Lemma qmax_ge_l a b : (a <= qmax a b)%Q.
Proof. unfold qmax. destruct (Qlt_le_dec a b); lra. Qed.

Lemma qmax_ge_r a b : (b <= qmax a b)%Q.
Proof. unfold qmax. destruct (Qlt_le_dec a b); lra. Qed.

Lemma qmax_cases a b : qmax a b = a \/ qmax a b = b.
Proof. unfold qmax. destruct (Qlt_le_dec a b); auto. Qed.

Lemma foldl_qmax_ge_init r : forall x, (x <= foldl qmax x r)%Q.
Proof.
  induction r as [|y r IH]; intros x; simpl; [lra|].
  eapply Qle_trans; [apply (qmax_ge_l x y)|apply IH].
Qed.

Lemma foldl_qmax_ge r : forall x y, y ∈ r -> (y <= foldl qmax x r)%Q.
Proof.
  induction r as [|z r IH]; intros x y Hy; [by inversion Hy|].
  simpl. apply elem_of_cons in Hy as [->|Hy]; [|by apply IH].
  eapply Qle_trans; [apply (qmax_ge_r x z)|apply foldl_qmax_ge_init].
Qed.

Lemma foldl_qmax_in r : forall x, foldl qmax x r ∈ x :: r.
Proof.
  induction r as [|z r IH]; intros x; simpl; [by left|].
  specialize (IH (qmax x z)). apply elem_of_cons in IH as [E|IH].
  - rewrite E. destruct (qmax_cases x z) as [-> | ->]; [by left|].
    right. by left.
  - right. by right.
Qed.

Lemma row_max_ge row x : x ∈ row -> (x <= row_max row)%Q.
Proof.
  destruct row as [|y r]; [by inversion 1|]. simpl.
  intros [->|H]%elem_of_cons;
    [apply foldl_qmax_ge_init | by apply foldl_qmax_ge].
Qed.

Lemma row_max_in row : row <> [] -> row_max row ∈ row.
Proof. destruct row as [|y r]; [done|]. intros _. apply foldl_qmax_in. Qed.

Lemma qsum_nonneg l : (forall e, e ∈ l -> (0 <= e)%Q) -> (0 <= qsum l)%Q.
Proof.
  induction l as [|x l IH]; intros H; simpl; [lra|].
  pose proof (H x ltac:(by left)).
  pose proof (IH ltac:(intros; apply H; by right)). lra.
Qed.

Lemma qsum_ge_elem l x :
  (forall e, e ∈ l -> (0 <= e)%Q) -> x ∈ l -> (x <= qsum l)%Q.
Proof.
  induction l as [|y l IH]; intros H Hx; [by inversion Hx|]. simpl.
  pose proof (H y ltac:(by left)).
  pose proof (qsum_nonneg l ltac:(intros; apply H; by right)).
  apply elem_of_cons in Hx as [->|Hx]; [lra|].
  pose proof (IH ltac:(intros; apply H; by right) Hx). lra.
Qed.

Lemma qsum_map_div l s :
  (qsum (map (fun e => e / s) l) == qsum l / s)%Q.
Proof.
  induction l as [|x l IH]; simpl.
  - unfold Qdiv. lra.
  - rewrite IH. unfold Qdiv. lra.
Qed.

Section RowFacts.
Context {F : Float} {FS : FloatSpec F}.

Lemma exps_nonneg row e : e ∈ exps row -> (0 <= e)%Q.
Proof.
  unfold exps. intros (x & -> & _)%list_elem_of_fmap. apply fexp_nonneg.
Qed.

(** The largest entry contributes [exp 0 = 1] to the normaliser. *)
Lemma exps_sum_ge_1 row : row <> [] -> (1 <= qsum (exps row))%Q.
Proof.
  intros Hne. pose proof (row_max_in row Hne) as Hin.
  assert (fexp (row_max row - row_max row) ∈ exps row) as He.
  { unfold exps. apply list_elem_of_fmap. by exists (row_max row). }
  pose proof (qsum_ge_elem _ _ (exps_nonneg row) He) as Hle.
  assert (fexp (row_max row - row_max row) == 1)%Q as E.
  { rewrite <- fexp_0. apply fexp_proper. lra. }
  lra.
Qed.

Lemma softmax_lookup row i :
  softmax row !! i
  = (fun x => (fexp (x - row_max row) / qsum (exps row))%Q) <$> row !! i.
Proof.
  unfold softmax, exps. rewrite !list_lookup_fmap.
  by destruct (row !! i).
Qed.

Lemma length_softmax row : length (softmax row) = length row.
Proof. unfold softmax, exps. by rewrite !length_map. Qed.

Lemma softmax_nonneg row p : p ∈ softmax row -> (0 <= p)%Q.
Proof.
  intros Hp. apply list_elem_of_lookup in Hp as [i Hi].
  rewrite softmax_lookup in Hi.
  destruct (row !! i) as [x|] eqn:E; [|done]. simpl in Hi.
  injection Hi as <-.
  assert (row <> []) as Hne by (intros ->; done).
  pose proof (exps_sum_ge_1 row Hne). pose proof (fexp_nonneg (x - row_max row)).
  apply Qle_shift_div_l; lra.
Qed.

Lemma softmax_sum row : row <> [] -> (qsum (softmax row) == 1)%Q.
Proof.
  intros Hne. unfold softmax. rewrite qsum_map_div.
  pose proof (exps_sum_ge_1 row Hne). field. lra.
Qed.

(** An entry that lies 104 or more below the largest one gets probability
    exactly 0. *)
Lemma softmax_underflow row i x :
  row !! i = Some x -> (x - row_max row <= -104)%Q ->
  exists p, softmax row !! i = Some p /\ (p == 0)%Q.
Proof.
  intros Hi Hx. eexists. rewrite softmax_lookup, Hi. split; [done|].
  simpl. rewrite (fexp_underflow _ Hx). unfold Qdiv. lra.
Qed.

(** An entry with positive probability is less than 104 below the largest
    entry. *)
Lemma softmax_pos row i p :
  softmax row !! i = Some p -> (0 < p)%Q ->
  exists x, row !! i = Some x /\ (-104 < x - row_max row)%Q.
Proof.
  intros Hi Hp. rewrite softmax_lookup in Hi.
  destruct (row !! i) as [x|] eqn:E; [|done]. exists x. split; [done|].
  destruct (Qlt_le_dec (-104) (x - row_max row)) as [|Hle]; [done|]. exfalso.
  simpl in Hi. injection Hi as <-.
  rewrite (fexp_underflow _ Hle) in Hp. unfold Qdiv in Hp. lra.
Qed.

End RowFacts.

(* --------------------------------------------------------------------- *)
(** *** Sampling *)

Lemma pick_sound w : forall t i0 i,
  (0 <= t)%Q -> pick w t i0 = Some i ->
  exists x, i0 <= i /\ w !! (i - i0) = Some x /\ (0 < x)%Q.
Proof.
  induction w as [|x w IH]; intros t i0 i Ht H; simpl in H; [done|].
  destruct (Qlt_le_dec t x) as [Hlt|Hle].
  - injection H as <-. exists x. rewrite Nat.sub_diag.
    split; [done|]. split; [done|]. lra.
  - destruct (IH (t - x)%Q (S i0) i ltac:(lra) H) as (y & Hi & Hy & Hpos).
    exists y. split; [lia|]. split; [|done].
    replace (i - i0) with (S (i - S i0)) by lia. done.
Qed.

Lemma pick_complete w : forall t i0,
  (forall x, x ∈ w -> (0 <= x)%Q) -> (0 <= t)%Q -> (t < qsum w)%Q ->
  exists i, pick w t i0 = Some i.
Proof.
  induction w as [|x w IH]; intros t i0 Hw Ht Hs.
  - change (qsum []) with 0%Q in Hs. lra.
  - change (qsum (x :: w)) with (x + qsum w)%Q in Hs. simpl.
    destruct (Qlt_le_dec t x) as [Hlt|Hle]; [by eexists|].
    apply IH; [intros; apply Hw; by right | lra | lra].
Qed.

Lemma no_negative_entry w :
  existsb (fun x => negb (Qle_bool 0 x)) w = false <->
  forall x, x ∈ w -> (0 <= x)%Q.
Proof.
  induction w as [|y w IH]; simpl.
  - split; [intros _ x Hx; by inversion Hx|done].
  - rewrite orb_false_iff, negb_false_iff, Qle_bool_iff, IH. split.
    + intros [Hy Hw] x [->|Hx]%elem_of_cons; auto.
    + intros H. split; [apply H; by left | intros; apply H; by right].
Qed.

(** A draw succeeds on non-negative weights with a positive total. *)
Lemma multinomial_total w u :
  (forall x, x ∈ w -> (0 <= x)%Q) -> (0 < qsum w)%Q -> (0 <= u < 1)%Q ->
  exists i, multinomial w u = Ok i.
Proof.
  intros Hw Hs Hu. unfold multinomial.
  rewrite (proj2 (no_negative_entry w) Hw).
  destruct (Qle_bool (qsum w) 0) eqn:E.
  { apply Qle_bool_iff in E. lra. }
  destruct (pick_complete w (u * qsum w) 0 Hw) as [i Hi].
  - apply Qmult_le_0_compat; lra.
  - rewrite <- (Qmult_1_l (qsum w)) at 2. apply Qmult_lt_compat_r; lra.
  - exists i. by rewrite Hi.
Qed.

(** The drawn index carries positive weight. *)
Lemma multinomial_sound w u i :
  (0 <= u)%Q -> multinomial w u = Ok i ->
  exists x, w !! i = Some x /\ (0 < x)%Q.
Proof.
  intros Hu. unfold multinomial.
  destruct (existsb _ w) eqn:Eneg; [done|].
  destruct (Qle_bool (qsum w) 0) eqn:E; [done|].
  assert (0 < qsum w)%Q as Hs.
  { destruct (Qlt_le_dec 0 (qsum w)) as [|Hle]; [done|].
    apply Qle_bool_iff in Hle. congruence. }
  destruct (pick w (u * qsum w) 0) as [j|] eqn:Hp; [|done].
  intros [= <-].
  destruct (pick_sound w (u * qsum w)%Q 0 j
              ltac:(apply Qmult_le_0_compat; lra) Hp)
    as (x & _ & Hx & Hpos).
  rewrite Nat.sub_0_r in Hx. by exists x.
Qed.

Section SamplingSoftmax.
Context {F : Float} {FS : FloatSpec F}.

(** Sampling from a softmax row never raises. *)
Lemma multinomial_softmax_total row u :
  row <> [] -> (0 <= u < 1)%Q -> exists i, multinomial (softmax row) u = Ok i.
Proof.
  intros Hne Hu. apply multinomial_total; [apply softmax_nonneg| |done].
  rewrite (softmax_sum row Hne). lra.
Qed.

(** The sampled entry is less than 104 below the largest logit. *)
Lemma multinomial_softmax_sound row u i :
  (0 <= u)%Q -> multinomial (softmax row) u = Ok i ->
  exists x, row !! i = Some x /\ (-104 < x - row_max row)%Q.
Proof.
  intros Hu H. destruct (multinomial_sound _ _ _ Hu H) as (p & Hp & Hpos).
  by eapply softmax_pos.
Qed.

End SamplingSoftmax.

(* --------------------------------------------------------------------- *)
(** *** Grids and their flattening *)

(** The cell [(p, d)] of a grid. *)
Definition cell {A} (g : list (list A)) (p d : nat) : option A :=
  g !! p ≫= (fun row => row !! d).

(** All rows of a grid have length [L], and there are [L] of them. *)
Definition square {A} (L : nat) (g : list (list A)) : Prop :=
  length g = L /\ Forall (fun r => length r = L) g.

Lemma concat_lookup_cell {A} (g : list (list A)) L p d :
  Forall (fun r => length r = L) g -> d < L ->
  concat g !! (p * L + d) = cell g p d.
Proof.
  intros Hg Hd. revert p. induction Hg as [|r g Hr Hg IH]; intros p.
  - unfold cell. simpl. by rewrite !lookup_nil.
  - simpl. destruct p as [|p].
    + simpl. unfold cell. simpl. rewrite lookup_app_l by lia. done.
    + rewrite lookup_app_r by (rewrite Hr; simpl; lia).
      rewrite Hr. replace (S p * L + d - L) with (p * L + d) by lia.
      rewrite IH. done.
Qed.

Lemma length_concat_square {A} (g : list (list A)) L :
  Forall (fun r => length r = L) g -> length (concat g) = length g * L.
Proof.
  induction 1 as [|r g Hr Hg IH]; simpl; [done|].
  rewrite length_app, IH, Hr. done.
Qed.

Lemma concat_zip_with {A B C} (f : A -> B -> C) g m L :
  Forall (fun r => length r = L) g -> Forall (fun r => length r = L) m ->
  concat (zip_with (zip_with f) g m) = zip_with f (concat g) (concat m).
Proof.
  intros Hg. revert m. induction Hg as [|r g Hr Hg IH]; intros m Hm.
  - done.
  - destruct Hm as [|r' m Hr' Hm]; simpl.
    + by rewrite zip_with_nil_r.
    + rewrite IH by done. rewrite zip_with_app by congruence. done.
Qed.

(** Flat index and cell coordinates. *)
Lemma flat_index_cell {A} (g : list (list A)) L c :
  0 < L -> Forall (fun r => length r = L) g ->
  concat g !! c = cell g (c / L) (c mod L).
Proof.
  intros HL Hg.
  rewrite <- (concat_lookup_cell g L (c / L) (c mod L) Hg)
    by (apply Nat.mod_upper_bound; lia).
  f_equal. rewrite (Nat.div_mod_eq c L) at 1. lia.
Qed.

Lemma mapM_zip_Ok {A B C} (f : A * B -> result C) (g : A -> B -> C) l1 l2 :
  (forall a b, (a, b) ∈ zip l1 l2 -> f (a, b) = Ok (g a b)) ->
  mapM f (zip l1 l2) = Ok (zip_with g l1 l2).
Proof.
  revert l2. induction l1 as [|a l1 IH]; intros [|b l2] H; simpl; try done.
  rewrite (H a b) by (by left). simpl.
  rewrite IH by (intros; apply H; by right). done.
Qed.

(* --------------------------------------------------------------------- *)
(** *** Rows with entries overwritten by [-1e20] *)

Lemma qsum_single l : forall c z,
  l !! c = Some z ->
  (forall k y, l !! k = Some y -> k <> c -> (y == 0)%Q) ->
  (qsum l == z)%Q.
Proof.
  induction l as [|x l IH]; intros c z Hc H; [done|].
  change (qsum (x :: l)) with (x + qsum l)%Q.
  destruct c as [|c]; simpl in Hc.
  - injection Hc as ->.
    assert (qsum l == 0)%Q as E.
    { clear IH. induction l as [|y l IHl]; [reflexivity|].
      change (qsum (y :: l)) with (y + qsum l)%Q.
      rewrite (H 1 y eq_refl ltac:(lia)).
      rewrite IHl; [lra|]. intros k y' Hk Hne.
      destruct k as [|k]; [done|]. apply (H (S (S k)) y'); [done|lia]. }
    lra.
  - rewrite (H 0 x eq_refl ltac:(lia)).
    rewrite (IH c z Hc); [lra|].
    intros k y Hk Hne. apply (H (S k) y Hk). lia.
Qed.

Lemma qsum_const l c :
  (forall y, y ∈ l -> (y == c)%Q) ->
  (qsum l == inject_Z (Z.of_nat (length l)) * c)%Q.
Proof.
  induction l as [|x l IH]; intros H.
  - change (0 == 0 * c)%Q. lra.
  - change (qsum (x :: l)) with (x + qsum l)%Q.
    assert (inject_Z (Z.of_nat (length (x :: l)))
            == inject_Z (Z.of_nat (length l)) + 1)%Q as ->.
    { simpl length. rewrite Nat2Z.inj_succ. unfold Z.succ.
      rewrite inject_Z_plus. reflexivity. }
    rewrite (H x ltac:(by left)), IH by (intros; apply H; by right). lra.
Qed.

Section MaskedRows.
Context {F : Float} {FS : FloatSpec F}.
Variable v : Q.
Hypothesis Hv : (0 <= v <= v_range_max)%Q.

(** A logit bounded by the range, as [tanh(...) * v_range] is. *)
Definition bounded (x : Q) : Prop := (- v <= x <= v)%Q.

Lemma tanh_bounded x : bounded (ftanh x * v).
Proof using FS Hv.
  unfold bounded. pose proof (ftanh_range x) as [Hl Hu].
  pose proof (Qmult_le_compat_r _ _ v Hu ltac:(lra)).
  pose proof (Qmult_le_compat_r _ _ v Hl ltac:(lra)). lra.
Qed.

Lemma bounded_not_huge x : bounded x -> x <> neg_huge.
Proof using Hv.
  unfold bounded, neg_huge, v_range_max in *. intros H ->. lra.
Qed.

(** Next to a bounded logit, [-1e20] is at least 104 below the maximum. *)
Lemma huge_gap row k x :
  row !! k = Some x -> bounded x -> (neg_huge - row_max row <= -104)%Q.
Proof using Hv.
  intros Hk Hx. pose proof (row_max_ge row x (list_elem_of_lookup_2 _ _ _ Hk)).
  unfold bounded, neg_huge, v_range_max in *. lra.
Qed.

(** ... so it gets probability exactly 0, ... *)
Lemma masked_prob_zero row i k x :
  row !! i = Some neg_huge -> row !! k = Some x -> bounded x ->
  exists p, softmax row !! i = Some p /\ (p == 0)%Q.
Proof using FS Hv.
  intros Hi Hk Hx. eapply softmax_underflow; [done|].
  apply (huge_gap row k x Hk Hx).
Qed.

(** ... and is never drawn. *)
Lemma sampled_not_masked row u i k x :
  (0 <= u)%Q -> multinomial (softmax row) u = Ok i ->
  row !! k = Some x -> bounded x ->
  exists y, row !! i = Some y /\ y <> neg_huge.
Proof using FS Hv.
  intros Hu Hs Hk Hx.
  destruct (multinomial_softmax_sound row u i Hu Hs) as (y & Hy & Hgap).
  exists y. split; [done|]. intros ->.
  pose proof (huge_gap row k x Hk Hx). lra.
Qed.

(** If one entry is bounded and all others are [-1e20], the bounded entry
    gets probability 1. *)
Lemma single_option_prob_one row c x :
  row !! c = Some x -> bounded x ->
  (forall k y, row !! k = Some y -> k <> c -> y = neg_huge) ->
  exists p, softmax row !! c = Some p /\ (p == 1)%Q.
Proof using FS Hv.
  intros Hc Hx Hoth.
  assert (row_max row = x) as Hmax.
  { assert (row <> []) as Hne by (intros ->; done).
    pose proof (row_max_in row Hne) as Hin.
    apply list_elem_of_lookup in Hin as [k Hk].
    destruct (decide (k = c)) as [->|Hkc]; [congruence|].
    pose proof (Hoth k _ Hk Hkc) as E.
    pose proof (row_max_ge row x (list_elem_of_lookup_2 _ _ _ Hc)) as Hge.
    rewrite E in Hge. unfold bounded, neg_huge, v_range_max in *. lra. }
  assert (fexp (x - x) == 1)%Q as E1.
  { rewrite <- fexp_0. apply fexp_proper. lra. }
  assert (qsum (exps row) == fexp (x - x))%Q as Hsum.
  { apply (qsum_single _ c).
    - unfold exps. by rewrite list_lookup_fmap, Hc, Hmax.
    - intros k e Hk Hkc. unfold exps in Hk. rewrite list_lookup_fmap in Hk.
      destruct (row !! k) as [y|] eqn:Ey; [|done]. simpl in Hk.
      injection Hk as <-. rewrite (Hoth k y Ey Hkc).
      apply fexp_underflow. apply (huge_gap row c x Hc Hx). }
  eexists. rewrite softmax_lookup, Hc. split; [done|]. simpl.
  rewrite Hmax, Hsum, E1. reflexivity.
Qed.

(** If every entry is [-1e20], all entries get the same probability. *)
Lemma all_masked_uniform row i :
  (forall k y, row !! k = Some y -> y = neg_huge) -> i < length row ->
  exists p, softmax row !! i = Some p /\
            (p == 1 / inject_Z (Z.of_nat (length row)))%Q.
Proof using FS.
  intros Hall Hi.
  destruct (lookup_lt_is_Some_2 row i Hi) as [y Hy].
  assert (row <> []) as Hne by (intros ->; done).
  assert (row_max row = neg_huge) as Hmax.
  { pose proof (row_max_in row Hne) as Hin.
    apply list_elem_of_lookup in Hin as [k Hk]. by eapply Hall. }
  assert (fexp (neg_huge - neg_huge) == 1)%Q as E1.
  { rewrite <- fexp_0. apply fexp_proper. lra. }
  assert (qsum (exps row) == inject_Z (Z.of_nat (length row)) * 1)%Q as Hsum.
  { rewrite <- (length_map (fun x => fexp (x - row_max row)%Q) row).
    apply qsum_const. intros e (z & -> & Hz)%list_elem_of_fmap.
    apply list_elem_of_lookup in Hz as [k Hk].
    rewrite (Hall k z Hk), Hmax. exact E1. }
  eexists. rewrite softmax_lookup, Hy. split; [done|]. simpl.
  rewrite (Hall i y Hy), Hmax, Hsum, E1. rewrite Qmult_1_r. reflexivity.
Qed.

End MaskedRows.

(* --------------------------------------------------------------------- *)
(** *** Sampling one index per row *)

Lemma sample_rows_lookup probs us v :
  sample_rows probs us = Ok v ->
  length v = length (zip probs us) /\
  forall b i, v !! b = Some i ->
    exists row u, probs !! b = Some row /\ us !! b = Some u /\
                  multinomial row u = Ok i.
Proof.
  unfold sample_rows. rewrite mapM_Ok. intros H. split.
  - symmetry. by eapply Forall2_length.
  - intros b i Hi.
    destruct (Forall2_lookup_r _ _ _ _ _ H Hi) as ([row u] & Hz & Hm).
    apply lookup_zip_with_Some in Hz as (r' & u' & [= <- <-] & Hr & Hu).
    by exists row, u.
Qed.

Lemma sample_rows_total {F : Float} {FS : FloatSpec F} rows us :
  length us = length rows ->
  Forall (fun r => r <> []) rows ->
  Forall (fun u => (0 <= u < 1)%Q) us ->
  exists v, sample_rows (map softmax rows) us = Ok v /\ length v = length rows.
Proof.
  intros Hlen Hrows Hus.
  destruct (mapM_Ok_total (fun ru : list Q * Q => multinomial ru.1 ru.2)
              (zip (map softmax rows) us)) as [v Hv].
  { intros [row u] Hin. apply list_elem_of_lookup in Hin as [b Hb].
    apply lookup_zip_with_Some in Hb as (r' & u' & [= <- <-] & Hr & Hu).
    rewrite list_lookup_fmap in Hr.
    destruct (rows !! b) as [r0|] eqn:E; [|done]. injection Hr as <-.
    simpl. apply multinomial_softmax_total.
    - rewrite Forall_forall in Hrows. apply Hrows.
      by eapply list_elem_of_lookup_2.
    - rewrite Forall_forall in Hus. apply Hus.
      by eapply list_elem_of_lookup_2. }
  exists v. split; [done|].
  destruct (sample_rows_lookup _ _ _ Hv) as [-> _].
  rewrite length_zip, length_map. lia.
Qed.

(* --------------------------------------------------------------------- *)
(** *** The regular regime: at least two instances and two request pairs *)

Definition grids_ok {A} (B L : nat) (g : list (list (list A))) : Prop :=
  length g = B /\
  Forall (fun gr => length gr = L /\ Forall (fun r => length r = L) gr) g.

(** Expanding a dimension that has the target size changes nothing. *)
Lemma expand_dim_id {A} n (l : list A) : length l = n -> expand_dim n l = Ok l.
Proof. intros H. unfold expand_dim. by rewrite decide_True. Qed.

Lemma expand_dim_length {A} n (l l' : list A) :
  expand_dim n l = Ok l' -> length l' = n.
Proof.
  unfold expand_dim. case_decide as H; [by intros [= <-]|].
  destruct l as [|x [|y l]]; try done. intros [= <-]. apply length_replicate.
Qed.

Lemma mapM_id {A} (f : A -> result A) (l : list A) :
  Forall (fun x => f x = Ok x) l -> mapM f l = Ok l.
Proof. intros H. apply mapM_Ok. induction H; by constructor. Qed.

Lemma expand_mask_id B L m : grids_ok B L m -> expand_mask B L m = Ok m.
Proof.
  intros [HB Hg]. unfold expand_mask.
  rewrite (mapM_id _ m).
  - cbn [mbind result_bind]. by apply expand_dim_id.
  - eapply Forall_impl; [exact Hg|]. intros g [Hgl Hgr]. simpl.
    rewrite (mapM_id _ g).
    + cbn [mbind result_bind]. by apply expand_dim_id.
    + eapply Forall_impl; [exact Hgr|]. intros r Hr. by apply expand_dim_id.
Qed.

(** An expanded mask has the shape
    [(batch_size, graph_size_plus1, graph_size_plus1)]. *)
Lemma expand_mask_shape B L m m' :
  expand_mask B L m = Ok m' -> grids_ok B L m'.
Proof.
  unfold expand_mask. intros H. apply bind_Ok in H as (m1 & H1 & H2).
  assert (Forall (fun g => length g = L /\ Forall (fun r => length r = L) g) m1)
    as Hm1.
  { apply mapM_Ok in H1. clear H2.
    induction H1 as [|g g' m0 m1' Hg _ IH]; [constructor|].
    constructor; [|exact IH].
    apply bind_Ok in Hg as (g1 & Hg1 & Hg2). split.
    - by eapply expand_dim_length.
    - assert (Forall (fun r => length r = L) g1) as Hrows.
      { apply mapM_Ok in Hg1. clear Hg2.
        induction Hg1 as [|r r' g0 g1' Hr _ IHg]; constructor; [|exact IHg].
        by eapply expand_dim_length. }
      revert Hg2. unfold expand_dim. case_decide; [by intros [= <-]|].
      destruct g1 as [|x [|y g1]]; try done. intros [= <-].
      apply Forall_replicate. by apply Forall_inv in Hrows. }
  split; [by eapply expand_dim_length|].
  revert H2. unfold expand_dim. case_decide; [by intros [= <-]|].
  destruct m1 as [|x [|y m1]]; try done. intros [= <-].
  apply Forall_replicate. by apply Forall_inv in Hm1.
Qed.

Record regular (cfg : config) (inp : step_input) (rnd : randomness) (n : nat)
  : Prop := {
  reg_batch : 2 <= batch_size inp;
  reg_pairs : 2 <= n;
  reg_nodes : graph_size_plus1 inp = 2 * n + 1;
  reg_removal :
    length (compater_removal inp) = batch_size inp /\
    Forall (fun r => length r = n) (compater_removal inp);
  reg_reinsertion : forall pp pd,
    grids_ok (batch_size inp) (graph_size_plus1 inp)
             (compater_reinsertion inp pp pd);
  reg_mask : forall v,
    grids_ok (batch_size inp) (graph_size_plus1 inp) (get_swap_mask inp v);
  reg_pre : forall pa, pre_action inp = Some pa ->
    length pa = batch_size inp /\ Forall (fun a => act_pair a < n) pa;
  reg_fixed : forall fa, fixed_action inp = Some fa ->
    length fa = batch_size inp /\
    Forall (fun a => act_pair a < n /\ act_p a < graph_size_plus1 inp /\
                     act_d a < graph_size_plus1 inp) fa;
  reg_u_removal :
    length (u_removal rnd) = batch_size inp /\
    Forall (fun u => (0 <= u < 1)%Q) (u_removal rnd);
  reg_u_reinsertion :
    length (u_reinsertion rnd) = batch_size inp /\
    Forall (fun u => (0 <= u < 1)%Q) (u_reinsertion rnd);
  reg_v_range : (0 <= v_range cfg <= v_range_max)%Q
}.

(** The guard [pre_action is not None and pre_action[0, 0] > 0]. *)
Definition tabu_active (inp : step_input) : bool :=
  match pre_action inp with
  | Some (a :: _) => 0 <? act_pair a
  | _ => false
  end.

(** The removal logits of the regular regime, one row per instance. *)
Definition removal_logits {F : Float} (cfg : config) (inp : step_input)
  : list (list Q) :=
  let rows :=
    map (map (fun x => (ftanh x * v_range cfg)%Q)) (compater_removal inp) in
  match pre_action inp with
  | Some pa =>
      if tabu_active inp
      then zip_with (fun row a => <[a := neg_huge]> row) rows (map act_pair pa)
      else rows
  | None => rows
  end.

(** The reinsertion logits of the regular regime, one flat row per
    instance. *)
Definition reinsertion_logits {F : Float} (cfg : config) (inp : step_input)
    (removed : list nat) : list (list Q) :=
  let pos_pickup := map S removed in
  let pos_delivery := map (fun p => p + half_pos inp) pos_pickup in
  map (fun g => concat g)
      (mask_fill
         (map (map (map (fun x => (ftanh x * v_range cfg)%Q)))
              (compater_reinsertion inp pos_pickup pos_delivery))
         (get_swap_mask inp pos_pickup)).

Section Regular.
Context {F : Float} {FS : FloatSpec F}.
Variable cfg : config.
Variable inp : step_input.
Variable rnd : randomness.
Variable n : nat.
Hypothesis Hreg : regular cfg inp rnd n.

Lemma half_eq : graph_size_plus1 inp / 2 = n.
Proof using Hreg.
  rewrite (reg_nodes _ _ _ _ Hreg).
  replace (2 * n + 1) with (1 + n * 2) by lia.
  rewrite Nat.div_add by lia. done.
Qed.

Lemma half_pos_eq : half_pos inp = n.
Proof using Hreg.
  unfold half_pos. rewrite (reg_nodes _ _ _ _ Hreg).
  replace (2 * n + 1 - 1) with (n * 2) by lia. apply Nat.div_mul. lia.
Qed.

Lemma removal_shape_regular :
  Shapes.action_removal_table_shape (batch_size inp)
    (graph_size_plus1 inp / 2) (n_heads cfg) = [batch_size inp; n].
Proof using Hreg.
  rewrite half_eq. pose proof (reg_batch _ _ _ _ Hreg).
  pose proof (reg_pairs _ _ _ _ Hreg).
  apply Shapes.shapes_regular; lia.
Qed.

Lemma reinsertion_shape_regular :
  Shapes.reinsertion_decoder_shape (batch_size inp) (graph_size_plus1 inp)
    (n_heads cfg)
  = [batch_size inp; graph_size_plus1 inp; graph_size_plus1 inp].
Proof using Hreg.
  rewrite (reg_nodes _ _ _ _ Hreg). pose proof (reg_batch _ _ _ _ Hreg).
  pose proof (reg_pairs _ _ _ _ Hreg).
  apply Shapes.shapes_regular; lia.
Qed.

Lemma index_put_rows B rows idx v :
  length idx = B -> length rows = B ->
  (forall b row i, rows !! b = Some row -> idx !! b = Some i ->
     i < length row) ->
  index_put B (T2 rows) idx v
  = Ok (T2 (zip_with (fun (row : list Q) a => <[a := v]> row) rows idx)).
Proof.
  intros Hi Hr Hin. unfold index_put, broadcast_index.
  rewrite !decide_True by done. cbn [mbind result_bind].
  rewrite (mapM_zip_Ok _ (fun (row : list Q) a => <[a := v]> row)); [done|].
  intros row i Hri. apply list_elem_of_lookup in Hri as [b Hb].
  apply lookup_zip_with_Some in Hb as (r' & i' & [= <- <-] & Hr' & Hi').
  simpl. pose proof (Hin b row i Hr' Hi') as Hlt.
  apply Nat.ltb_lt in Hlt. by rewrite Hlt.
Qed.

(** In the regular regime the removal table keeps its two dimensions. *)
Lemma action_removal_table_regular :
  action_removal_table cfg inp = Ok (T2 (removal_logits cfg inp)).
Proof using Hreg.
  unfold action_removal_table, removal_logits, tabu_active.
  rewrite removal_shape_regular. simpl view_as. simpl table_map.
  destruct (pre_action inp) as [pa|] eqn:Epa; [|done].
  destruct (reg_pre _ _ _ _ Hreg pa Epa) as [Hlen Hall].
  destruct (reg_removal _ _ _ _ Hreg) as [Hrl Hrows].
  pose proof (reg_batch _ _ _ _ Hreg) as HB.
  destruct (pa !! 0) as [a0|] eqn:E0;
    [|apply lookup_ge_None in E0; lia].
  unfold lookup_or_raise. rewrite E0.
  cbn [of_option mbind result_bind].
  assert ((match pa with a :: _ => 0 <? act_pair a | [] => false end)
          = (0 <? act_pair a0)) as ->.
  { destruct pa; [done|]. by injection E0 as ->. }
  destruct (0 <? act_pair a0); [|done].
  apply index_put_rows; [by rewrite length_map..|].
  intros b row i Hr Hi. rewrite !list_lookup_fmap in Hr.
  rewrite list_lookup_fmap in Hi.
  destruct (compater_removal inp !! b) as [r0|] eqn:Er; [|done].
  destruct (pa !! b) as [a|] eqn:Ea; [|done].
  simpl in Hr, Hi. injection Hr as <-. injection Hi as <-.
  rewrite Forall_forall in Hrows. rewrite Forall_forall in Hall.
  rewrite length_map, (Hrows r0) by (by eapply list_elem_of_lookup_2).
  apply Hall. by eapply list_elem_of_lookup_2.
Qed.

Lemma removal_logits_length :
  length (removal_logits cfg inp) = batch_size inp.
Proof using Hreg.
  destruct (reg_removal _ _ _ _ Hreg) as [Hrl _].
  unfold removal_logits. destruct (pre_action inp) as [pa|] eqn:Epa.
  - destruct (reg_pre _ _ _ _ Hreg pa Epa) as [Hlen _].
    destruct (tabu_active inp).
    + rewrite length_zip_with, !length_map. lia.
    + by rewrite length_map.
  - by rewrite length_map.
Qed.

(** A row of removal logits: [n] entries, each bounded or [-1e20], at
    least one bounded; the entry of the previous pair is [-1e20] when the
    guard holds. *)
Lemma removal_logits_row b row :
  removal_logits cfg inp !! b = Some row ->
  length row = n /\
  (forall k x, row !! k = Some x -> bounded (v_range cfg) x \/ x = neg_huge) /\
  (exists k x, row !! k = Some x /\ bounded (v_range cfg) x) /\
  (forall pa a, tabu_active inp = true -> pre_action inp = Some pa ->
     pa !! b = Some a -> row !! act_pair a = Some neg_huge).
Proof using Hreg FS.
  intros Hb.
  destruct (reg_removal _ _ _ _ Hreg) as [Hrl Hrows].
  pose proof (reg_pairs _ _ _ _ Hreg) as Hn.
  pose proof (reg_v_range _ _ _ _ Hreg) as Hv.
  rewrite Forall_forall in Hrows.
  assert (forall r0, compater_removal inp !! b = Some r0 ->
            let r := map (fun x => (ftanh x * v_range cfg)%Q) r0 in
            length r = n /\
            forall k x, r !! k = Some x -> bounded (v_range cfg) x) as Hbase.
  { intros r0 Hr0 r. split.
    - unfold r. rewrite length_map. apply Hrows.
      by eapply list_elem_of_lookup_2.
    - intros k x Hk. unfold r in Hk. rewrite list_lookup_fmap in Hk.
      destruct (r0 !! k); [|done]. injection Hk as <-.
      by apply tanh_bounded. }
  assert (forall r0, compater_removal inp !! b = Some r0 ->
            let r := map (fun x => (ftanh x * v_range cfg)%Q) r0 in
            row = r ->
            length row = n /\
            (forall k x, row !! k = Some x ->
               bounded (v_range cfg) x \/ x = neg_huge) /\
            (exists k x, row !! k = Some x /\ bounded (v_range cfg) x))
    as Hplain.
  { intros r0 Hr0 r ->. destruct (Hbase r0 Hr0) as [Hl Hbd].
    split; [done|]. split; [intros k x Hk; left; by eapply Hbd|].
    destruct (lookup_lt_is_Some_2 r 0 ltac:(fold r in Hl; lia)) as [x Hx].
    exists 0, x. split; [done|]. by eapply Hbd. }
  unfold removal_logits in Hb.
  destruct (pre_action inp) as [pa|] eqn:Epa.
  - destruct (tabu_active inp) eqn:Et.
    + apply lookup_zip_with_Some in Hb as (r & a & -> & Hr & Ha).
      rewrite list_lookup_fmap in Hr.
      destruct (compater_removal inp !! b) as [r0|] eqn:Er0; [|done].
      injection Hr as <-. destruct (Hbase r0 eq_refl) as [Hl Hbd].
      split; [by rewrite length_insert|]. split; [|split].
      * intros k x Hk. destruct (decide (k = a)) as [->|Hne].
        -- pose proof (lookup_lt_Some _ _ _ Hk) as Hlt.
           rewrite length_insert in Hlt.
           rewrite list_lookup_insert_eq in Hk by done. right. congruence.
        -- rewrite list_lookup_insert_ne in Hk by done. left. by eapply Hbd.
      * set (k := if decide (a = 0) then 1 else 0).
        assert (k <> a /\ k < n) as [Hka Hkn] by (unfold k; case_decide; lia).
        destruct (lookup_lt_is_Some_2
                    (map (fun x => (ftanh x * v_range cfg)%Q) r0) k) as [x Hx];
          [lia|].
        exists k, x. rewrite list_lookup_insert_ne by done.
        split; [done|]. by eapply Hbd.
      * intros pa' a' _ [= <-] Ha'. rewrite list_lookup_fmap, Ha' in Ha.
        injection Ha as <-.
        rewrite list_lookup_insert_eq; [done|].
        rewrite Hl. destruct (reg_pre _ _ _ _ Hreg pa Epa) as [_ Hall].
        rewrite Forall_forall in Hall. apply Hall.
        by eapply list_elem_of_lookup_2.
    + rewrite list_lookup_fmap in Hb.
      destruct (compater_removal inp !! b) as [r0|] eqn:Er0; [|done].
      injection Hb as Hb.
      destruct (Hplain r0 eq_refl (eq_sym Hb)) as (? & ? & ?).
      split; [done|]. split; [done|]. split; [done|]. done.
  - rewrite list_lookup_fmap in Hb.
    destruct (compater_removal inp !! b) as [r0|] eqn:Er0; [|done].
    injection Hb as Hb.
    destruct (Hplain r0 eq_refl (eq_sym Hb)) as (? & ? & ?).
    split; [done|]. split; [done|]. split; [done|].
    intros ?? Ht. unfold tabu_active in Ht. by rewrite Epa in Ht.
Qed.

(** **** Reinsertion logits *)

Lemma expand_mask_regular v :
  expand_mask (batch_size inp) (graph_size_plus1 inp) (get_swap_mask inp v)
  = Ok (get_swap_mask inp v).
Proof using Hreg. apply expand_mask_id, (reg_mask _ _ _ _ Hreg). Qed.

Lemma masked_table_regular (action_removal : index) :
  TYPE_REINSERTION cfg = "NNS" ->
  let mask_table := get_swap_mask inp (map S (index_values action_removal)) in
  exists tabs,
    reinsertion_tables_of cfg inp action_removal mask_table = Ok tabs /\
    probs_reinsertion_random tabs = None /\
    masked_table inp tabs mask_table
    = Ok (reinsertion_logits cfg inp (index_values action_removal)).
Proof using Hreg.
  intros HT mask_table. unfold reinsertion_tables_of. rewrite HT.
  simpl String.eqb. cbv iota. eexists. split; [done|]. split; [done|].
  unfold masked_table. simpl table_shape. rewrite reinsertion_shape_regular.
  unfold Shapes.mask_applies. simpl length. simpl take.
  rewrite bool_decide_eq_true_2 by done. done.
Qed.

(** A flat row of reinsertion logits: [-1e20] at the cells the mask marks,
    a bounded logit elsewhere. *)
Lemma reinsertion_logits_row removed b fl gm :
  reinsertion_logits cfg inp removed !! b = Some fl ->
  get_swap_mask inp (map S removed) !! b = Some gm ->
  length fl = graph_size_plus1 inp * graph_size_plus1 inp /\
  (forall c x, fl !! c = Some x ->
     (concat gm !! c = Some true /\ x = neg_huge) \/
     (concat gm !! c = Some false /\ bounded (v_range cfg) x)) /\
  (forall c m, concat gm !! c = Some m -> is_Some (fl !! c)).
Proof using Hreg FS.
  intros Hfl Hgm. unfold reinsertion_logits in Hfl.
  pose proof (reg_v_range _ _ _ _ Hreg) as Hv.
  set (pp := map S removed) in *.
  set (pd := map (fun p => p + half_pos inp) pp) in *.
  destruct (reg_reinsertion _ _ _ _ Hreg pp pd) as [HGl HG].
  destruct (reg_mask _ _ _ _ Hreg pp) as [HMl HM].
  rewrite list_lookup_fmap in Hfl. unfold mask_fill in Hfl.
  destruct (zip_with _ _ _ !! b) as [g'|] eqn:Eg; [|done].
  injection Hfl as <-.
  apply lookup_zip_with_Some in Eg as (g & gm' & -> & Hg & Hgm').
  assert (gm' = gm) as -> by congruence.
  rewrite list_lookup_fmap in Hg.
  destruct (compater_reinsertion inp pp pd !! b) as [g0|] eqn:Eg0; [|done].
  injection Hg as <-.
  rewrite Forall_forall in HG. rewrite Forall_forall in HM.
  destruct (HG g0 ltac:(by eapply list_elem_of_lookup_2)) as [Hg0l Hg0].
  destruct (HM gm ltac:(by eapply list_elem_of_lookup_2)) as [Hgml Hgmr].
  set (L := graph_size_plus1 inp) in *.
  assert (Forall (fun r => length r = L)
            (map (map (fun x => (ftanh x * v_range cfg)%Q)) g0)) as Hg0'.
  { apply Forall_fmap. eapply Forall_impl; [exact Hg0|].
    intros r Hr. simpl. by rewrite length_map. }
  rewrite (concat_zip_with _ _ _ L Hg0' Hgmr).
  assert (length (concat (map (map (fun x => (ftanh x * v_range cfg)%Q)) g0))
          = L * L) as Hcl.
  { rewrite (length_concat_square _ L Hg0'), length_map. by rewrite Hg0l. }
  assert (length (concat gm) = L * L) as Hml.
  { rewrite (length_concat_square _ L Hgmr). by rewrite Hgml. }
  split; [rewrite length_zip_with; lia|]. split.
  - intros c x Hc.
    apply lookup_zip_with_Some in Hc as (y & m & -> & Hy & Hm).
    assert (bounded (v_range cfg) y) as Hby.
    { apply list_elem_of_lookup_2 in Hy.
      apply list_elem_of_In, in_concat in Hy as (r & Hr & Hyr).
      apply list_elem_of_In in Hr. apply list_elem_of_In in Hyr.
      apply list_elem_of_fmap in Hr as (r0 & -> & _).
      apply list_elem_of_fmap in Hyr as (y0 & -> & _).
      by apply tanh_bounded. }
    destruct m; [left|right]; done.
  - intros c m Hm. apply lookup_lt_is_Some_2.
    rewrite length_zip_with. apply lookup_lt_Some in Hm. lia.
Qed.

(** Reading one entry per row never fails when the indices are in range. *)
Lemma gather_rows_total (rows : list (list Q)) (ix : list nat) :
  (forall b row i, rows !! b = Some row -> ix !! b = Some i ->
     i < length row) ->
  exists l,
    mapM (fun ri : list Q * nat => lookup_or_raise ri.1 ri.2) (zip rows ix)
    = Ok l /\
    forall b row i, rows !! b = Some row -> ix !! b = Some i ->
      l !! b = row !! i.
Proof.
  intros Hin.
  exists (zip_with (fun (row : list Q) i => default 0%Q (row !! i)) rows ix).
  split.
  - apply mapM_zip_Ok. intros row i Hri.
    apply list_elem_of_lookup in Hri as [b Hb].
    apply lookup_zip_with_Some in Hb as (r' & i' & [= <- <-] & Hr & Hi).
    simpl. unfold lookup_or_raise.
    destruct (lookup_lt_is_Some_2 row i (Hin b row i Hr Hi)) as [x ->].
    done.
  - intros b row i Hr Hi.
    rewrite lookup_zip_with, Hr, Hi. simpl.
    destruct (lookup_lt_is_Some_2 row i (Hin b row i Hr Hi)) as [x ->].
    done.
Qed.

(** **** The removal stage with the trained policy *)

Hypothesis Hremoval : TYPE_REMOVAL cfg = "NNS".

Lemma removal_tables_regular :
  removal_tables_of cfg inp rnd
  = Ok {| log_ll_removal :=
            if training cfg
            then Some (T2 (map log_softmax (removal_logits cfg inp)))
            else None;
          probs_removal := T2 (map softmax (removal_logits cfg inp));
          probs_removal_random := None |}.
Proof using Hreg Hremoval.
  unfold removal_tables_of. rewrite Hremoval. simpl String.eqb. cbv iota.
  rewrite action_removal_table_regular. done.
Qed.

Lemma removal_logits_nonempty :
  Forall (fun r => r <> []) (removal_logits cfg inp).
Proof using Hreg FS.
  apply Forall_forall. intros row Hrow.
  apply list_elem_of_lookup in Hrow as [b Hb].
  destruct (removal_logits_row b row Hb) as (Hl & _).
  pose proof (reg_pairs _ _ _ _ Hreg). intros ->. simpl in Hl. lia.
Qed.

(** The removed pairs: those of [fixed_action], or one draw per instance. *)
Lemma removal_choice :
  exists removed,
    length removed = batch_size inp /\
    match fixed_action inp with
    | Some fa => removed = map act_pair fa
    | None =>
        sample_rows (map softmax (removal_logits cfg inp)) (u_removal rnd)
        = Ok removed
    end /\
    (forall b i, removed !! b = Some i -> i < n) /\
    forall rt, removal_tables_of cfg inp rnd = Ok rt ->
      action_removal_of cfg inp rnd rt = Ok (Column removed).
Proof using Hreg Hremoval FS.
  unfold action_removal_of.
  destruct (fixed_action inp) as [fa|] eqn:Efa.
  - destruct (reg_fixed _ _ _ _ Hreg fa Efa) as [Hlen Hall].
    exists (map act_pair fa). split; [by rewrite length_map|].
    split; [done|]. split; [|done].
    intros b i Hi. rewrite list_lookup_fmap in Hi.
    destruct (fa !! b) as [a|] eqn:Ea; [|done]. injection Hi as <-.
    rewrite Forall_forall in Hall.
    apply (Hall a). by eapply list_elem_of_lookup_2.
  - destruct (reg_u_removal _ _ _ _ Hreg) as [Hul Hu].
    destruct (sample_rows_total (removal_logits cfg inp) (u_removal rnd))
      as (removed & Hs & Hlen);
      [by rewrite removal_logits_length | apply removal_logits_nonempty
      | done |].
    exists removed. rewrite removal_logits_length in Hlen.
    split; [done|]. split; [done|]. split.
    + intros b i Hi.
      destruct (sample_rows_lookup _ _ _ Hs) as [_ Hlk].
      destruct (Hlk b i Hi) as (prow & u & Hp & Hub & Hm).
      rewrite list_lookup_fmap in Hp.
      destruct (removal_logits cfg inp !! b) as [row|] eqn:Er; [|done].
      injection Hp as <-.
      rewrite Forall_forall in Hu.
      destruct (multinomial_sound (softmax row) u i) as (x & Hx & _);
        [|exact Hm|].
      { apply (Hu u). by eapply list_elem_of_lookup_2. }
      apply lookup_lt_Some in Hx. rewrite length_softmax in Hx.
      destruct (removal_logits_row b row Er) as (Hl & _). lia.
    + intros rt Hrt. rewrite removal_tables_regular in Hrt.
      injection Hrt as <-. rewrite Hremoval. simpl.
      unfold sample_rows in Hs. rewrite Hs. done.
Qed.

Lemma selected_log_ll_action1_regular removed :
  length removed = batch_size inp ->
  (forall b i, removed !! b = Some i -> i < n) ->
  exists l1,
    length l1 = batch_size inp /\
    (forall b row i, removal_logits cfg inp !! b = Some row ->
       removed !! b = Some i -> l1 !! b = log_softmax row !! i) /\
    forall rt, removal_tables_of cfg inp rnd = Ok rt ->
      selected_log_ll_action1 cfg rt (Column removed)
      = Ok (if training cfg then LL l1 else LL0).
Proof using Hreg Hremoval FS.
  intros Hlen Hin.
  destruct (gather_rows_total (map log_softmax (removal_logits cfg inp)) removed)
    as (l1 & Hl1 & Hlk).
  { intros b lrow i Hr Hi. rewrite list_lookup_fmap in Hr.
    destruct (removal_logits cfg inp !! b) as [row|] eqn:Er; [|done].
    injection Hr as <-. unfold log_softmax. rewrite length_map.
    destruct (removal_logits_row b row Er) as (Hl & _).
    rewrite Hl. by eapply Hin. }
  exists l1. split; [|split].
  - apply mapM_Ok, Forall2_length in Hl1.
    rewrite <- Hl1, length_zip, length_map, removal_logits_length. lia.
  - intros b row i Hr Hi. apply (Hlk b); [|done].
    by rewrite list_lookup_fmap, Hr.
  - intros rt Hrt. rewrite removal_tables_regular in Hrt. injection Hrt as <-.
    unfold selected_log_ll_action1. rewrite Hremoval. simpl String.eqb.
    rewrite andb_true_r. destruct (training cfg); [|done]. simpl.
    rewrite length_map, removal_logits_length, Hlen, Nat.leb_refl.
    rewrite Hl1. done.
Qed.

(** **** The reinsertion stage with the trained policy *)

Hypothesis Hreinsertion : TYPE_REINSERTION cfg = "NNS".

Lemma reinsertion_logits_length removed :
  length (reinsertion_logits cfg inp removed) = batch_size inp.
Proof using Hreg.
  unfold reinsertion_logits, mask_fill.
  rewrite length_map, length_zip_with, length_map.
  destruct (reg_reinsertion _ _ _ _ Hreg (map S removed)
              (map (fun p => p + half_pos inp) (map S removed))) as [-> _].
  destruct (reg_mask _ _ _ _ Hreg (map S removed)) as [-> _]. lia.
Qed.

Lemma reinsertion_logits_mask removed b fl :
  reinsertion_logits cfg inp removed !! b = Some fl ->
  exists gm, get_swap_mask inp (map S removed) !! b = Some gm.
Proof using Hreg.
  intros Hfl. apply lookup_lt_Some in Hfl.
  rewrite reinsertion_logits_length in Hfl.
  apply lookup_lt_is_Some_2.
  by destruct (reg_mask _ _ _ _ Hreg (map S removed)) as [-> _].
Qed.

Lemma nodes_pos : 0 < graph_size_plus1 inp.
Proof using Hreg. rewrite (reg_nodes _ _ _ _ Hreg). lia. Qed.

Lemma reinsertion_logits_row_length removed b fl :
  reinsertion_logits cfg inp removed !! b = Some fl ->
  length fl = graph_size_plus1 inp * graph_size_plus1 inp.
Proof using Hreg FS.
  intros Hfl. destruct (reinsertion_logits_mask removed b fl Hfl) as [gm Hgm].
  by destruct (reinsertion_logits_row removed b fl gm Hfl Hgm) as [? _].
Qed.

Lemma reinsertion_logits_nonempty removed :
  Forall (fun r => r <> []) (reinsertion_logits cfg inp removed).
Proof using Hreg FS.
  apply Forall_forall. intros fl Hfl.
  apply list_elem_of_lookup in Hfl as [b Hb].
  pose proof (reinsertion_logits_row_length removed b fl Hb) as Hl.
  pose proof nodes_pos. intros ->. simpl in Hl. nia.
Qed.

(** The insertion cells: those of [fixed_action], or one draw per
    instance. *)
Lemma reinsertion_choice removed :
  exists cells,
    length cells = batch_size inp /\
    match fixed_action inp with
    | Some fa =>
        cells = map (fun a => act_p a * graph_size_plus1 inp + act_d a) fa
    | None =>
        sample_rows (map softmax (reinsertion_logits cfg inp removed))
                    (u_reinsertion rnd) = Ok cells
    end /\
    (forall b c, cells !! b = Some c ->
       c < graph_size_plus1 inp * graph_size_plus1 inp) /\
    forall tabs,
      pair_index_of cfg inp rnd tabs
        (map softmax (reinsertion_logits cfg inp removed)) = Ok cells.
Proof using Hreg Hreinsertion FS.
  unfold pair_index_of.
  destruct (fixed_action inp) as [fa|] eqn:Efa.
  - destruct (reg_fixed _ _ _ _ Hreg fa Efa) as [Hlen Hall].
    eexists. split; [by rewrite length_map|].
    split; [done|]. split; [|done].
    intros b c Hc. rewrite list_lookup_fmap in Hc.
    destruct (fa !! b) as [a|] eqn:Ea; [|done]. injection Hc as <-.
    rewrite Forall_forall in Hall.
    destruct (Hall a ltac:(by eapply list_elem_of_lookup_2)) as (_ & Hp & Hd).
    nia.
  - destruct (reg_u_reinsertion _ _ _ _ Hreg) as [Hul Hu].
    destruct (sample_rows_total (reinsertion_logits cfg inp removed)
                (u_reinsertion rnd)) as (cells & Hs & Hlen);
      [by rewrite reinsertion_logits_length
      | apply reinsertion_logits_nonempty | done |].
    exists cells. rewrite reinsertion_logits_length in Hlen.
    split; [done|]. split; [done|]. split.
    + intros b c Hc.
      destruct (sample_rows_lookup _ _ _ Hs) as [_ Hlk].
      destruct (Hlk b c Hc) as (prow & u & Hp & Hub & Hm).
      rewrite list_lookup_fmap in Hp.
      destruct (reinsertion_logits cfg inp removed !! b) as [fl|] eqn:Er;
        [|done].
      injection Hp as <-.
      rewrite Forall_forall in Hu.
      destruct (multinomial_sound (softmax fl) u c) as (x & Hx & _);
        [|exact Hm|].
      { apply (Hu u). by eapply list_elem_of_lookup_2. }
      apply lookup_lt_Some in Hx. rewrite length_softmax in Hx.
      by rewrite <- (reinsertion_logits_row_length removed b fl Er).
    + intros tabs. rewrite Hreinsertion. simpl. exact Hs.
Qed.

Lemma selected_log_ll_action2_regular removed cells :
  length cells = batch_size inp ->
  (forall b c, cells !! b = Some c ->
     c < graph_size_plus1 inp * graph_size_plus1 inp) ->
  exists l2,
    length l2 = batch_size inp /\
    (forall b fl c, reinsertion_logits cfg inp removed !! b = Some fl ->
       cells !! b = Some c -> l2 !! b = log_softmax fl !! c) /\
    selected_log_ll_action2 cfg
      (map log_softmax (reinsertion_logits cfg inp removed)) cells
    = Ok (if training cfg then LL l2 else LL0).
Proof using Hreg Hreinsertion FS.
  intros Hlen Hin.
  destruct (gather_rows_total
              (map log_softmax (reinsertion_logits cfg inp removed)) cells)
    as (l2 & Hl2 & Hlk).
  { intros b lrow c Hr Hc. rewrite list_lookup_fmap in Hr.
    destruct (reinsertion_logits cfg inp removed !! b) as [fl|] eqn:Er;
      [|done].
    injection Hr as <-. unfold log_softmax. rewrite length_map.
    rewrite (reinsertion_logits_row_length removed b fl Er). by eapply Hin. }
  exists l2. split; [|split].
  - apply mapM_Ok, Forall2_length in Hl2.
    rewrite <- Hl2, length_zip, length_map, reinsertion_logits_length. lia.
  - intros b fl c Hr Hc. apply (Hlk b); [|done].
    by rewrite list_lookup_fmap, Hr.
  - unfold selected_log_ll_action2. rewrite Hreinsertion. simpl String.eqb.
    rewrite andb_true_r. destruct (training cfg); [|done].
    rewrite length_map, reinsertion_logits_length, Hlen, Nat.leb_refl.
    rewrite Hl2. done.
Qed.

(** **** The whole step with the trained policy in both stages *)

Lemma forward_regular_nns :
  exists removed cells l1 l2,
    length removed = batch_size inp /\ length cells = batch_size inp /\
    length l1 = batch_size inp /\ length l2 = batch_size inp /\
    match fixed_action inp with
    | Some fa =>
        removed = map act_pair fa /\
        cells = map (fun a => act_p a * graph_size_plus1 inp + act_d a) fa
    | None =>
        sample_rows (map softmax (removal_logits cfg inp)) (u_removal rnd)
        = Ok removed /\
        sample_rows (map softmax (reinsertion_logits cfg inp removed))
                    (u_reinsertion rnd) = Ok cells
    end /\
    (forall b i, removed !! b = Some i -> i < n) /\
    (forall b c, cells !! b = Some c ->
       c < graph_size_plus1 inp * graph_size_plus1 inp) /\
    (forall b row i, removal_logits cfg inp !! b = Some row ->
       removed !! b = Some i -> l1 !! b = log_softmax row !! i) /\
    (forall b fl c, reinsertion_logits cfg inp removed !! b = Some fl ->
       cells !! b = Some c -> l2 !! b = log_softmax fl !! c) /\
    forward cfg inp rnd
    = Ok (match fixed_action inp with
          | Some fa => fa
          | None =>
              zip_with (fun a c => (a, c / graph_size_plus1 inp,
                                    c mod graph_size_plus1 inp))
                       removed cells
          end,
          if training cfg then LL (zip_with Qplus l1 l2) else LL0).
Proof using Hreg Hremoval Hreinsertion FS.
  destruct removal_choice as (removed & Hrl & Hrc & Hrin & Hra).
  destruct (selected_log_ll_action1_regular removed Hrl Hrin)
    as (l1 & Hl1 & Hl1k & Hll1).
  destruct (reinsertion_choice removed) as (cells & Hcl & Hcc & Hcin & Hpi).
  destruct (selected_log_ll_action2_regular removed cells Hcl Hcin)
    as (l2 & Hl2 & Hl2k & Hll2).
  destruct (masked_table_regular (Column removed) Hreinsertion)
    as (tabs & Htabs & _ & Hflat).
  exists removed, cells, l1, l2.
  split; [done|]. split; [done|]. split; [done|]. split; [done|].
  split. { destruct (fixed_action inp); done. }
  split; [done|]. split; [done|]. split; [done|]. split; [done|].
  unfold forward. rewrite removal_tables_regular.
  cbn [mbind result_bind].
  rewrite (Hra _ removal_tables_regular). cbn [mbind result_bind].
  rewrite (Hll1 _ removal_tables_regular). cbn [mbind result_bind].
  cbn [index_values] in *. rewrite expand_mask_regular.
  cbn [mbind result_bind].
  rewrite Htabs. cbn [mbind result_bind].
  rewrite Hflat. cbn [mbind result_bind].
  rewrite Hpi. cbn [mbind result_bind].
  rewrite Hll2.
  unfold action_of. cbn [index_values].
  destruct (fixed_action inp) as [fa|].
  - cbn [mbind result_bind]. by destruct (training cfg).
  - rewrite decide_True by done. cbn [mbind result_bind].
    by destruct (training cfg).
Qed.

(** **** Cells and flat indices of one instance *)

Lemma cell_lt {A} (g : list (list A)) L p d m :
  square L g -> cell g p d = Some m -> p < L /\ d < L.
Proof.
  intros [Hl Hr] Hc. unfold cell in Hc.
  destruct (g !! p) as [row|] eqn:Ep; [|done]. simpl in Hc.
  rewrite Forall_forall in Hr.
  pose proof (Hr row ltac:(by eapply list_elem_of_lookup_2)) as Hrow.
  apply lookup_lt_Some in Ep. apply lookup_lt_Some in Hc. lia.
Qed.

Lemma mask_square removed b gm :
  get_swap_mask inp (map S removed) !! b = Some gm ->
  square (graph_size_plus1 inp) gm.
Proof using Hreg.
  intros Hgm. destruct (reg_mask _ _ _ _ Hreg (map S removed)) as [_ HM].
  rewrite Forall_forall in HM. apply HM. by eapply list_elem_of_lookup_2.
Qed.

(** How the mask of an instance shows in its flat row of logits. *)
Lemma flat_row_cells removed b fl gm :
  reinsertion_logits cfg inp removed !! b = Some fl ->
  get_swap_mask inp (map S removed) !! b = Some gm ->
  let L := graph_size_plus1 inp in
  (forall p d, cell gm p d = Some true -> fl !! (p * L + d) = Some neg_huge) /\
  (forall p d, cell gm p d = Some false ->
     exists x, fl !! (p * L + d) = Some x /\ bounded (v_range cfg) x) /\
  (forall c y, fl !! c = Some y ->
     y = neg_huge \/ cell gm (c / L) (c mod L) = Some false) /\
  (forall c y, fl !! c = Some y -> y <> neg_huge ->
     cell gm (c / L) (c mod L) = Some false).
Proof using Hreg FS.
  intros Hfl Hgm L.
  destruct (reinsertion_logits_row removed b fl gm Hfl Hgm)
    as (Hlen & Hcls & Hdef).
  pose proof (mask_square removed b gm Hgm) as Hsq.
  pose proof Hsq as [Hgl Hgr]. pose proof nodes_pos as HL.
  assert (forall c y, fl !! c = Some y ->
            y = neg_huge \/ cell gm (c / L) (c mod L) = Some false) as Hc.
  { intros c y Hy. destruct (Hcls c y Hy) as [[_ ->]|[Hm _]]; [by left|].
    right. by rewrite <- (flat_index_cell gm L c HL Hgr). }
  split; [|split; [|split]].
  - intros p d Hpd. destruct (cell_lt gm L p d true Hsq Hpd) as [Hp Hd].
    rewrite <- (concat_lookup_cell gm L p d Hgr Hd) in Hpd.
    destruct (Hdef _ _ Hpd) as [x Hx]. rewrite Hx. f_equal.
    destruct (Hcls _ _ Hx) as [[_ ->]|[Hm _]]; [done|congruence].
  - intros p d Hpd. destruct (cell_lt gm L p d false Hsq Hpd) as [Hp Hd].
    rewrite <- (concat_lookup_cell gm L p d Hgr Hd) in Hpd.
    destruct (Hdef _ _ Hpd) as [x Hx]. exists x. split; [done|].
    destruct (Hcls _ _ Hx) as [[Hm _]|[_ Hb]]; [congruence|done].
  - exact Hc.
  - intros c y Hy Hne. destruct (Hc c y Hy); done.
Qed.

Lemma probs_reinsertion_regular removed :
  probs_reinsertion_of cfg inp (Column removed)
  = Ok (map softmax (reinsertion_logits cfg inp removed)).
Proof using Hreg Hreinsertion.
  unfold probs_reinsertion_of.
  destruct (masked_table_regular (Column removed) Hreinsertion)
    as (tabs & Htabs & _ & Hflat).
  cbn [index_values] in *. rewrite expand_mask_regular.
  cbn [mbind result_bind]. rewrite Htabs. cbn [mbind result_bind].
  rewrite Hflat. done.
Qed.

(** The returned actions name the removed pairs and the chosen cells. *)
Lemma sampled_actions removed cells :
  length removed = batch_size inp -> length cells = batch_size inp ->
  let L := graph_size_plus1 inp in
  let actions := zip_with (fun a c => (a, c / L, c mod L)) removed cells in
  map act_pair actions = removed /\
  forall b c, cells !! b = Some c ->
    exists a, actions !! b = Some (a, c / L, c mod L).
Proof.
  intros Hr Hc L actions. split.
  - unfold actions. apply list_eq. intros b.
    rewrite list_lookup_fmap, lookup_zip_with.
    destruct (removed !! b) as [a|] eqn:Ea; simpl; [|done].
    destruct (lookup_lt_is_Some_2 cells b) as [c ->]; [|done].
    apply lookup_lt_Some in Ea. lia.
  - intros b c Hb. unfold actions. rewrite lookup_zip_with, Hb.
    destruct (lookup_lt_is_Some_2 removed b) as [a ->]; [|by exists a].
    apply lookup_lt_Some in Hb. lia.
Qed.

(** **** What one step returns *)

(** The step returns; its actions name the removed pairs and, when they
    were sampled, the drawn cells. *)
Lemma forward_regular_actions :
  exists actions ll cells,
    forward cfg inp rnd = Ok (actions, ll) /\
    length actions = batch_size inp /\
    length cells = batch_size inp /\
    (fixed_action inp = None ->
       sample_rows
         (map softmax (reinsertion_logits cfg inp (map act_pair actions)))
         (u_reinsertion rnd) = Ok cells /\
       sample_rows (map softmax (removal_logits cfg inp)) (u_removal rnd)
       = Ok (map act_pair actions) /\
       forall b c, cells !! b = Some c ->
         exists a, actions !! b
                   = Some (a, c / graph_size_plus1 inp,
                           c mod graph_size_plus1 inp)).
Proof using Hreg Hremoval Hreinsertion FS.
  destruct forward_regular_nns
    as (removed & cells & l1 & l2 & Hrl & Hcl & _ & _ & Hch & _ & _ & _ & _ & Hfw).
  eexists _, _, cells. split; [exact Hfw|].
  destruct (fixed_action inp) as [fa|] eqn:Efa.
  - destruct (reg_fixed _ _ _ _ Hreg fa Efa) as [Hlen _].
    split; [done|]. split; [done|]. done.
  - destruct Hch as [Hs1 Hs2].
    destruct (sampled_actions removed cells Hrl Hcl) as [Hmap Hact].
    split; [rewrite length_zip_with; lia|]. split; [done|].
    intros _. rewrite Hmap. done.
Qed.

(** C1 (as the code has it). In the regular regime with the trained
    policy, the step returns, and for every instance whose mask leaves at
    least one cell feasible: every infeasible cell has probability exactly
    0 after normalisation; the sampled cell is feasible; and if exactly one
    cell is feasible, it has probability 1 and is the cell selected,
    whatever the learned scores are. *)
Theorem masked_cells_have_zero_mass :
  exists actions ll,
    forward cfg inp rnd = Ok (actions, ll) /\
    length actions = batch_size inp /\
    probs_reinsertion_of cfg inp (Column (map act_pair actions))
    = Ok (map softmax (reinsertion_logits cfg inp (map act_pair actions))) /\
    forall b gm fl,
      get_swap_mask inp (map S (map act_pair actions)) !! b = Some gm ->
      reinsertion_logits cfg inp (map act_pair actions) !! b = Some fl ->
      (exists p d, cell gm p d = Some false) ->
      let L := graph_size_plus1 inp in
      (forall p d, cell gm p d = Some true ->
         exists pr, softmax fl !! (p * L + d) = Some pr /\ (pr == 0)%Q) /\
      (fixed_action inp = None ->
         exists a p d, actions !! b = Some (a, p, d) /\
                       cell gm p d = Some false) /\
      (forall p d, cell gm p d = Some false ->
         (forall p' d', cell gm p' d' = Some false -> p' = p /\ d' = d) ->
         (exists pr, softmax fl !! (p * L + d) = Some pr /\ (pr == 1)%Q) /\
         (fixed_action inp = None -> exists a, actions !! b = Some (a, p, d))).
Proof using Hreg Hremoval Hreinsertion FS.
  destruct forward_regular_actions
    as (actions & ll & cells & Hfw & Hal & Hcl & Hsample).
  exists actions, ll. split; [done|]. split; [done|].
  split; [apply probs_reinsertion_regular|].
  intros b gm fl Hgm Hfl (p0 & d0 & Hfeas) L.
  pose proof (reg_v_range _ _ _ _ Hreg) as Hv.
  pose proof nodes_pos as HL.
  destruct (flat_row_cells _ b fl gm Hfl Hgm) as (Htrue & Hfalse & Hcls & Hnot).
  destruct (Hfalse p0 d0 Hfeas) as (x0 & Hx0 & Hb0).
  assert (fixed_action inp = None ->
          exists a c, actions !! b = Some (a, c / L, c mod L) /\
                      cell gm (c / L) (c mod L) = Some false) as Hsel.
  { intros Hnone. destruct (Hsample Hnone) as (Hs & _ & Hact).
    destruct (lookup_lt_is_Some_2 cells b) as [c Hc].
    { rewrite Hcl. apply lookup_lt_Some in Hfl.
      by rewrite reinsertion_logits_length in Hfl. }
    destruct (sample_rows_lookup _ _ _ Hs) as [_ Hlk].
    destruct (Hlk b c Hc) as (prow & u & Hp & Hu & Hm).
    rewrite list_lookup_fmap, Hfl in Hp. injection Hp as <-.
    destruct (reg_u_reinsertion _ _ _ _ Hreg) as [_ Hus].
    rewrite Forall_forall in Hus.
    destruct (Hus u ltac:(by eapply list_elem_of_lookup_2)) as [Hu0 _].
    destruct (sampled_not_masked (v_range cfg) Hv fl u c _ x0 Hu0 Hm Hx0 Hb0)
      as (y & Hy & Hne).
    destruct (Hact b c Hc) as [a Ha].
    exists a, c. split; [done|]. by eapply Hnot. }
  split; [|split].
  - intros p d Hpd.
    apply (masked_prob_zero (v_range cfg) Hv fl _ _ x0 (Htrue p d Hpd) Hx0 Hb0).
  - intros Hnone. destruct (Hsel Hnone) as (a & c & Ha & Hc).
    by exists a, (c / L), (c mod L).
  - intros p d Hpd Huniq. destruct (Hfalse p d Hpd) as (x & Hx & Hbx).
    destruct (cell_lt gm L p d false (mask_square _ b gm Hgm) Hpd) as [Hp Hd].
    split.
    + apply (single_option_prob_one (v_range cfg) Hv fl _ x Hx Hbx).
      intros k y Hk Hne. destruct (Hcls k y Hk) as [|Hcell]; [done|].
      exfalso. apply Hne. destruct (Huniq _ _ Hcell) as [<- <-].
      rewrite (Nat.div_mod_eq k L) at 1. fold L. lia.
    + intros Hnone. destruct (Hsel Hnone) as (a & c & Ha & Hc).
      destruct (Huniq _ _ Hc) as [E1 E2]. exists a. by rewrite <- E1, <- E2.
Qed.

(** C3 (as the code has it). If the mask marks every cell of an instance
    infeasible, the step raises nothing: all logits of the instance are
    [-1e20], every cell gets the same probability [1 / (2n+1)^2], and the
    action returned for the instance names a cell the mask marks
    infeasible. *)
Theorem all_masked_instance_gets_infeasible_cell :
  fixed_action inp = None ->
  exists actions ll,
    forward cfg inp rnd = Ok (actions, ll) /\
    probs_reinsertion_of cfg inp (Column (map act_pair actions))
    = Ok (map softmax (reinsertion_logits cfg inp (map act_pair actions))) /\
    forall b gm fl,
      get_swap_mask inp (map S (map act_pair actions)) !! b = Some gm ->
      reinsertion_logits cfg inp (map act_pair actions) !! b = Some fl ->
      (forall p d m, cell gm p d = Some m -> m = true) ->
      let L := graph_size_plus1 inp in
      (forall c, c < L * L ->
         exists pr, softmax fl !! c = Some pr /\
                    (pr == 1 / inject_Z (Z.of_nat (L * L)))%Q) /\
      exists a p d, actions !! b = Some (a, p, d) /\ cell gm p d = Some true.
Proof using Hreg Hremoval Hreinsertion FS.
  intros Hnone.
  destruct forward_regular_actions
    as (actions & ll & cells & Hfw & Hal & Hcl & Hsample).
  exists actions, ll. split; [done|].
  split; [apply probs_reinsertion_regular|].
  intros b gm fl Hgm Hfl Hall L.
  pose proof nodes_pos as HL.
  destruct (flat_row_cells _ b fl gm Hfl Hgm) as (_ & _ & Hcls & _).
  pose proof (reinsertion_logits_row_length _ b fl Hfl) as Hlen.
  assert (forall k y, fl !! k = Some y -> y = neg_huge) as Hhuge.
  { intros k y Hk. destruct (Hcls k y Hk) as [|Hc]; [done|].
    by specialize (Hall _ _ _ Hc). }
  split.
  - intros c Hc. fold L in Hlen. rewrite <- Hlen.
    apply all_masked_uniform; [done|lia].
  - destruct (Hsample Hnone) as (Hs & _ & Hact).
    destruct (lookup_lt_is_Some_2 cells b) as [c Hc].
    { rewrite Hcl. apply lookup_lt_Some in Hfl.
      by rewrite reinsertion_logits_length in Hfl. }
    destruct (Hact b c Hc) as [a Ha].
    exists a, (c / L), (c mod L). split; [done|].
    pose proof (mask_square _ b gm Hgm) as [Hgl Hgr].
    assert (c < L * L) as Hlt.
    { destruct (sample_rows_lookup _ _ _ Hs) as [_ Hlk].
      destruct (Hlk b c Hc) as (prow & u & Hp & Hu & Hm).
      rewrite list_lookup_fmap, Hfl in Hp. injection Hp as <-.
      destruct (reg_u_reinsertion _ _ _ _ Hreg) as [_ Hus].
      rewrite Forall_forall in Hus.
      destruct (Hus u ltac:(by eapply list_elem_of_lookup_2)) as [Hu0 _].
      destruct (multinomial_sound (softmax fl) u c Hu0 Hm) as (x & Hx & _).
      apply lookup_lt_Some in Hx. rewrite length_softmax in Hx.
      fold L in Hlen. lia. }
    destruct (lookup_lt_is_Some_2 (concat gm) c) as [m Hm].
    { rewrite (length_concat_square gm L Hgr). fold L in Hgl. nia. }
    rewrite (flat_index_cell gm L c HL Hgr) in Hm.
    by rewrite (Hall _ _ _ Hm) in Hm.
Qed.



End Regular.

(* --------------------------------------------------------------------- *)
(** *** Facts about every call *)

(** The stages of a call that returns. *)
Lemma forward_inv {F : Float} cfg inp rnd actions ll :
  forward cfg inp rnd = Ok (actions, ll) ->
  exists rt ar ll1 mask_table tabs flat pi ll2,
    removal_tables_of cfg inp rnd = Ok rt /\
    action_removal_of cfg inp rnd rt = Ok ar /\
    selected_log_ll_action1 cfg rt ar = Ok ll1 /\
    expand_mask (batch_size inp) (graph_size_plus1 inp)
      (get_swap_mask inp (map S (index_values ar))) = Ok mask_table /\
    reinsertion_tables_of cfg inp ar mask_table = Ok tabs /\
    masked_table inp tabs mask_table = Ok flat /\
    pair_index_of cfg inp rnd tabs (map softmax flat) = Ok pi /\
    action_of inp ar pi = Ok actions /\
    selected_log_ll_action2 cfg (map log_softmax flat) pi = Ok ll2 /\
    ll = loglik_add ll1 ll2.
Proof.
  unfold forward. intros H.
  apply bind_Ok in H as (rt & Hrt & H).
  apply bind_Ok in H as (ar & Har & H).
  apply bind_Ok in H as (ll1 & Hll1 & H).
  apply bind_Ok in H as (mask_table & Hmask & H).
  apply bind_Ok in H as (tabs & Htabs & H).
  apply bind_Ok in H as (flat & Hflat & H).
  apply bind_Ok in H as (pi & Hpi & H).
  apply bind_Ok in H as (act & Hact & H).
  apply bind_Ok in H as (ll2 & Hll2 & H).
  injection H as <- <-.
  by exists rt, ar, ll1, mask_table, tabs, flat, pi, ll2.
Qed.

(** With [fixed_action] the random numbers are not read. *)
Lemma forward_fixed_ignores_randomness {F : Float} cfg inp rnd rnd' fa :
  fixed_action inp = Some fa ->
  forward cfg inp rnd = forward cfg inp rnd'.
Proof.
  intros Efa.
  unfold forward, removal_tables_of, action_removal_of, pair_index_of,
    selected_log_ll_action1.
  rewrite Efa.
  destruct (String.eqb (TYPE_REMOVAL cfg) "NNS") eqn:E1; [done|].
  rewrite andb_false_r.
  destruct (String.eqb (TYPE_REMOVAL cfg) "random") eqn:E2; [done|].
  destruct (String.eqb (TYPE_REMOVAL cfg) "greedy") eqn:E3; [|done].
  destruct (mapM _ _); done.
Qed.




(** [pair_index // L] and [pair_index % L] undo [p * L + d]. *)
Lemma actions_of_choices (L : nat) (v pi : list nat) :
  length v = length pi ->
  map act_pair (zip_with (fun a c => (a, c / L, c mod L)) v pi) = v /\
  map (fun a => act_p a * L + act_d a)
      (zip_with (fun a c => (a, c / L, c mod L)) v pi) = pi.
Proof.
  revert pi. induction v as [|a v IH]; intros [|c pi] Hl; try done.
  simpl in Hl. destruct (IH pi ltac:(lia)) as [H1 H2]. simpl.
  split; f_equal; try done. unfold act_p, act_d. simpl.
  rewrite (Nat.div_mod_eq c L) at 3. lia.
Qed.




(* --------------------------------------------------------------------- *)
(** *** The random reinsertion policy *)

(** A row of the masked table of ones: 1 on a feasible cell, [-1e20] on an
    infeasible one. *)
Definition masked_ones (m : list bool) : list Q :=
  map (fun b : bool => if b then neg_huge else 1%Q) m.

Lemma masked_ones_zip (m : list bool) (o : list Q) :
  length o = length m -> (forall x, x ∈ o -> x = 1%Q) ->
  zip_with (fun x (b : bool) => if b then neg_huge else x) o m = masked_ones m.
Proof.
  revert o. induction m as [|b m IH]; intros [|x o] Hl Ho; try done.
  simpl. rewrite (Ho x ltac:(by left)). f_equal.
  apply IH; [simpl in Hl; lia|]. intros y Hy. apply Ho. by right.
Qed.

(** With [TYPE_REINSERTION = 'random'] the flattened table holds, for each
    instance, the masked row of ones. *)
Lemma random_reinsertion_rows {F : Float} cfg inp ar mask :
  TYPE_REINSERTION cfg = "random" ->
  grids_ok (batch_size inp) (graph_size_plus1 inp) mask ->
  exists tabs,
    reinsertion_tables_of cfg inp ar mask = Ok tabs /\
    probs_reinsertion_random tabs = None /\
    masked_table inp tabs mask
    = Ok (map (fun gm => masked_ones (concat gm)) mask).
Proof.
  intros HI [HB Hg].
  unfold reinsertion_tables_of. rewrite HI. simpl.
  eexists. split; [reflexivity|]. split; [reflexivity|].
  unfold masked_table, Shapes.mask_applies. simpl.
  rewrite bool_decide_eq_true_2 by done. f_equal.
  unfold mask_fill, ones. rewrite <- HB. clear HB.
  induction Hg as [|gm mask' [Hgl Hgr] Hg IH]; [done|].
  simpl. f_equal; [|exact IH].
  rewrite (concat_zip_with _ _ gm (graph_size_plus1 inp)).
  - apply masked_ones_zip.
    + rewrite !(length_concat_square _ (graph_size_plus1 inp)); try done.
      * by rewrite length_replicate, Hgl.
      * apply Forall_replicate. by rewrite length_replicate.
    + intros x Hx. apply list_elem_of_In, in_concat in Hx as (r & Hr & Hx).
      apply list_elem_of_In, elem_of_replicate in Hr as [-> _].
      apply list_elem_of_In, elem_of_replicate in Hx as [-> _]. done.
  - apply Forall_replicate. by rewrite length_replicate.
  - exact Hgr.
Qed.





(** C6 (evaluation of the code where it fails the claim). The branch that
    builds the greedy reinsertion table tests [TYPE_REMOVAL == 'greedy']
    where the sampling code below it tests [TYPE_REINSERTION == 'greedy']:
    with [TYPE_REINSERTION = 'greedy'] and any other removal policy no step
    returns, and with the trained removal policy in the regular regime the
    step ends in [assert False]. *)
Theorem greedy_reinsertion_needs_greedy_removal
    {F : Float} {FS : FloatSpec F} cfg inp rnd n :
  TYPE_REINSERTION cfg = "greedy" ->
  (TYPE_REMOVAL cfg <> "greedy" -> forall r, forward cfg inp rnd <> Ok r) /\
  (regular cfg inp rnd n -> TYPE_REMOVAL cfg = "NNS" ->
   forward cfg inp rnd = Raise AssertionError).
Proof.
  intros HI.
  assert (forall ar m, TYPE_REMOVAL cfg <> "greedy" ->
            reinsertion_tables_of cfg inp ar m = Raise AssertionError) as Htabs.
  { intros ar m HR. unfold reinsertion_tables_of. rewrite HI. simpl.
    apply String.eqb_neq in HR. by rewrite HR. }
  split.
  - intros HR [actions ll] H.
    apply forward_inv in H
      as (rt & ar & ll1 & mask & tabs & flat & pi & ll2
          & _ & _ & _ & _ & Ht & _).
    by rewrite Htabs in Ht.
  - intros Hreg HR.
    destruct (removal_choice cfg inp rnd n Hreg HR) as (removed & Hrl & _ & Hrin & Hra).
    destruct (selected_log_ll_action1_regular cfg inp rnd n Hreg HR removed Hrl Hrin)
      as (l1 & _ & _ & Hll1).
    pose proof (removal_tables_regular cfg inp rnd n Hreg HR) as Hrt.
    unfold forward. rewrite Hrt. cbn [mbind result_bind].
    rewrite (Hra _ Hrt). cbn [mbind result_bind].
    rewrite (Hll1 _ Hrt). cbn [mbind result_bind].
    rewrite (expand_mask_regular cfg inp rnd n Hreg).
    cbn [mbind result_bind].
    rewrite Htabs; [done|]. rewrite HR. done.
Qed.

(** C10 (evaluation of the code where it fails the claim). With a single
    instance, [squeeze()] drops the batch dimension of both logit tables:
    the removal table has shape [(n,)] and the reinsertion table
    [(2n+1, 2n+1)].  The assignment at [arange, pre_action[:, 0]] and the
    boolean mask of shape [(1, 2n+1, 2n+1)] then raise [IndexError], so with
    the trained reinsertion policy no step of a singleton batch returns. *)
Theorem singleton_batch_loses_batch_dimension {F : Float} cfg inp rnd n :
  2 <= n -> batch_size inp = 1 -> graph_size_plus1 inp = 2 * n + 1 ->
  Shapes.action_removal_table_shape 1 n (n_heads cfg) = [n] /\
  Shapes.reinsertion_decoder_shape 1 (2 * n + 1) (n_heads cfg)
  = [2 * n + 1; 2 * n + 1] /\
  Shapes.has_dim1 (Shapes.action_removal_table_shape 1 n (n_heads cfg))
  = false /\
  Shapes.mask_applies [1; 2 * n + 1; 2 * n + 1]
    (Shapes.reinsertion_decoder_shape 1 (2 * n + 1) (n_heads cfg)) = false /\
  (TYPE_REMOVAL cfg = "NNS" -> tabu_active inp = true ->
   action_removal_table cfg inp = Raise IndexError /\
   forward cfg inp rnd = Raise IndexError) /\
  (TYPE_REINSERTION cfg = "NNS" -> forall r, forward cfg inp rnd <> Ok r).
Proof.
  intros Hn HB HL.
  assert (Shapes.action_removal_table_shape 1 n (n_heads cfg) = [n]) as Hs1.
  { unfold Shapes.action_removal_table_shape.
    rewrite Shapes.removal_decoder_shape_eq, Shapes.squeeze_idemp.
    unfold Shapes.squeeze. cbn. repeat case_decide; try done; lia. }
  assert (Shapes.reinsertion_decoder_shape 1 (2 * n + 1) (n_heads cfg)
          = [2 * n + 1; 2 * n + 1]) as Hs2.
  { rewrite Shapes.reinsertion_decoder_shape_eq.
    unfold Shapes.squeeze. cbn -[Nat.mul Nat.add].
    repeat case_decide; try done; lia. }
  assert (Shapes.mask_applies [1; 2 * n + 1; 2 * n + 1]
            [2 * n + 1; 2 * n + 1] = false) as Hm.
  { unfold Shapes.mask_applies. apply bool_decide_eq_false_2.
    cbn -[Nat.mul Nat.add]. intros E.
    apply (f_equal length) in E. simpl in E. lia. }
  assert (graph_size_plus1 inp / 2 = n) as Hhalf.
  { rewrite HL. replace (2 * n + 1) with (1 + n * 2) by lia.
    rewrite Nat.div_add by lia. done. }
  split; [done|]. split; [done|]. split; [by rewrite Hs1|].
  split; [by rewrite Hs2|]. split.
  - intros HR Htabu.
    assert (action_removal_table cfg inp = Raise IndexError) as Ht.
    { unfold action_removal_table. rewrite HB, Hhalf, Hs1. simpl view_as.
      unfold tabu_active in Htabu.
      destruct (pre_action inp) as [[|a pa]|]; try done.
      simpl. by rewrite Htabu. }
    split; [done|].
    unfold forward, removal_tables_of. rewrite HR. simpl String.eqb.
    cbv iota. by rewrite Ht.
  - intros HI [actions ll] H.
    apply forward_inv in H
      as (rt & ar & ll1 & mask & tabs & flat & pi & ll2
          & _ & _ & _ & _ & Ht & Hf & _).
    unfold reinsertion_tables_of in Ht. rewrite HI in Ht. simpl in Ht.
    injection Ht as <-. unfold masked_table in Hf. simpl table_shape in Hf.
    rewrite HB, HL, Hs2, Hm in Hf. done.
Qed.

(* --------------------------------------------------------------------- *)
(** *** Concrete calls: two instances of the tour 0 -> 1 -> 2 -> 4 -> 3 -> 0 *)

Definition example_cfg (removal reinsertion : string) : config :=
  {| TYPE_REMOVAL := removal; TYPE_REINSERTION := reinsertion;
     training := true; v_range := 6%Q; n_heads := 4 |}.


Definition example_rnd : randomness :=
  {| rand_removal := [[1 # 2; 1 # 3]; [1 # 4; 3 # 4]]%Q;
     u_removal := [1 # 2; 9 # 10]%Q;
     u_reinsertion := [1 # 3; 2 # 3]%Q;
     eps_removal := [1 # 20; 1 # 2]%Q;
     eps_reinsertion := [1 # 2; 1 # 20]%Q |}.

Definition example_input (pa fa : option (list action))
    (mask : list (list (list bool))) : step_input :=
  {| batch_size := 2;
     graph_size_plus1 := 5;
     solution := [tour5; tour5];
     x_in := replicate 2 [(0, 0); (1, 0); (1, 1); (0, 1); (1 # 2, 1 # 2)]%Q;
     pre_action := pa;
     fixed_action := fa;
     compater_removal := [[1; -2]; [0; 3]]%Q;
     compater_reinsertion :=
       fun _ _ => replicate 2 (replicate 5 [1; 2; 3; -1; 0]%Q);
     get_swap_mask := fun _ => mask |}.

(** Masks: every cell infeasible, every cell feasible, and only the cell
    (2, 3) feasible. *)
Definition mask_all (b : bool) : list (list (list bool)) :=
  replicate 2 (replicate 5 (replicate 5 b)).

Definition mask_one_cell : list (list (list bool)) :=
  replicate 2
    (<[2 := <[3 := false]> (replicate 5 true)]> (replicate 5 (replicate 5 true))).

Definition actions_ok (n L : nat) (o : option (list action)) : Prop :=
  forall l, o = Some l ->
    length l = 2 /\
    Forall (fun a => act_pair a < n /\ act_p a < L /\ act_d a < L) l.

Lemma example_regular removal reinsertion pa fa mask :
  grids_ok 2 5 mask -> actions_ok 2 5 pa -> actions_ok 2 5 fa ->
  regular (example_cfg removal reinsertion) (example_input pa fa mask)
          example_rnd 2.
Proof.
  intros Hm Hpa Hfa. split; simpl.
  - lia.
  - lia.
  - done.
  - split; [done|]. repeat constructor.
  - intros _ _. split; [done|]. repeat constructor.
  - intros _. exact Hm.
  - intros l Hl. destruct (Hpa l Hl) as [Hlen Hall]. split; [done|].
    eapply Forall_impl; [exact Hall|]. by intros a (? & _).
  - exact Hfa.
  - split; [done|]. repeat constructor; lra.
  - split; [done|]. repeat constructor; lra.
  - unfold v_range_max. lra.
Qed.

Lemma mask_all_ok b : grids_ok 2 5 (mask_all b).
Proof. split; [done|]. repeat constructor. Qed.

Lemma mask_one_cell_ok : grids_ok 2 5 mask_one_cell.
Proof. split; [done|]. repeat constructor. Qed.

Lemma no_actions_ok n L : actions_ok n L None.
Proof. by intros l. Qed.


Ltac small_index i :=
  destruct i as [|[|[|[|[|?]]]]].

Lemma mask_one_cell_unique b g p d :
  mask_one_cell !! b = Some g -> cell g p d = Some false -> p = 2 /\ d = 3.
Proof.
  intros Hg H. destruct b as [|[|b]]; try discriminate Hg;
    injection Hg as <-;
    small_index p; small_index d; vm_compute in H; try discriminate H; done.
Qed.

Lemma mask_all_cells c b g p d m :
  mask_all c !! b = Some g -> cell g p d = Some m -> m = c.
Proof.
  intros Hg H. destruct b as [|[|b]]; try discriminate Hg;
    injection Hg as <-;
    small_index p; small_index d; cbv in H; congruence.
Qed.

(** The rows of reinsertion logits of a regular call, one per instance. *)
Lemma reinsertion_row_exists {F : Float} cfg inp rnd n removed b :
  regular cfg inp rnd n -> b < batch_size inp ->
  exists fl, reinsertion_logits cfg inp removed !! b = Some fl.
Proof.
  intros Hreg Hb. apply lookup_lt_is_Some_2.
  by rewrite (reinsertion_logits_length cfg inp rnd n Hreg).
Qed.

(** Hides the call in the goal and the context, so that evaluation in the
    remaining steps is confined to the small terms that need it. *)
Ltac hide_forward :=
  let fw := fresh "fw" in
  let E := fresh "E" in
  remember (forward _ _ _) as fw eqn:E in *; clear E.

(** Only the cell (2, 3) is feasible: both instances insert there. *)
Lemma masked_cells_have_zero_mass_witness :
  exists ll a0 a1,
    forward (example_cfg "NNS" "NNS") (example_input None None mask_one_cell)
            example_rnd
    = Ok ([(a0, 2, 3); (a1, 2, 3)], ll).
Proof.
  pose proof (example_regular "NNS" "NNS" None None mask_one_cell
                mask_one_cell_ok (no_actions_ok _ _) (no_actions_ok _ _))
    as Hreg.
  destruct (masked_cells_have_zero_mass (FS := coarse_float_spec)
              _ _ _ _ Hreg eq_refl eq_refl)
    as (actions & ll & Hfw & Hlen & _ & Hcells).
  hide_forward.
  destruct (reinsertion_row_exists (F := coarse_float) _ _ _ _ (map act_pair actions) 0 Hreg)
    as [fl0 Hfl0]; [simpl; lia|].
  destruct (reinsertion_row_exists (F := coarse_float) _ _ _ _ (map act_pair actions) 1 Hreg)
    as [fl1 Hfl1]; [simpl; lia|].
  destruct (Hcells 0 _ fl0 eq_refl Hfl0
              (ex_intro _ 2 (ex_intro _ 3 eq_refl))) as (_ & _ & H0).
  destruct (Hcells 1 _ fl1 eq_refl Hfl1
              (ex_intro _ 2 (ex_intro _ 3 eq_refl))) as (_ & _ & H1).
  destruct (H0 2 3 eq_refl) as [_ [a0 Ha0]];
    [intros p' d' Hc; exact (mask_one_cell_unique 0 _ p' d' eq_refl Hc)
    | reflexivity |].
  destruct (H1 2 3 eq_refl) as [_ [a1 Ha1]];
    [intros p' d' Hc; exact (mask_one_cell_unique 1 _ p' d' eq_refl Hc)
    | reflexivity |].
  exists ll, a0, a1. rewrite Hfw. do 2 f_equal.
  destruct actions as [|x [|y [|z l]]]; try discriminate Hlen.
  simpl in Ha0, Ha1. injection Ha0 as ->. injection Ha1 as ->. reflexivity.
Defined.

(** Every cell marked infeasible: each of the 25 cells still gets
    probability 1/25. *)
Lemma infeasible_cell_has_positive_mass :
  exists probs pr,
    probs_reinsertion_of (example_cfg "NNS" "NNS")
      (example_input None None (mask_all true)) (Column [0; 1]) = Ok probs /\
    cell probs 0 0 = Some pr /\
    (pr == 1 # 25)%Q /\ ~ (pr == 0)%Q /\
    (mask_all true !! 0) ≫= (fun g => cell g 0 0) = Some true.
Proof.
  eexists _, _. split; [vm_compute; reflexivity|].
  split; [reflexivity|]. split; [by vm_compute|]. split; [|reflexivity].
  by vm_compute.
Qed.

Lemma all_masked_instance_gets_infeasible_cell_witness :
  exists actions ll a p d,
    forward (example_cfg "NNS" "NNS") (example_input None None (mask_all true))
            example_rnd = Ok (actions, ll) /\
    actions !! 0 = Some (a, p, d) /\
    (mask_all true !! 0) ≫= (fun g => cell g p d) = Some true.
Proof.
  pose proof (example_regular "NNS" "NNS" None None (mask_all true)
                (mask_all_ok true) (no_actions_ok _ _) (no_actions_ok _ _))
    as Hreg.
  destruct (all_masked_instance_gets_infeasible_cell
              (FS := coarse_float_spec) _ _ _ _ Hreg eq_refl eq_refl eq_refl)
    as (actions & ll & Hfw & _ & Hcells).
  hide_forward.
  destruct (reinsertion_row_exists (F := coarse_float) _ _ _ _ (map act_pair actions) 0 Hreg)
    as [fl Hfl]; [simpl; lia|].
  destruct (Hcells 0 _ fl eq_refl Hfl) as (_ & a & p & d & Ha & Hc).
  { intros p d m Hc. exact (mask_all_cells true 0 _ p d m eq_refl Hc). }
  exists actions, ll, a, p, d. split; [exact Hfw|]. split; [exact Ha|].
  exact Hc.
Defined.

(** Every cell marked infeasible: the step returns the infeasible cells
    (1, 3) and (3, 1) instead of raising. *)
Lemma all_masked_step_returns_normally :
  exists ll,
    forward (example_cfg "NNS" "NNS") (example_input None None (mask_all true))
            example_rnd = Ok ([(0, 1, 3); (1, 3, 1)], ll) /\
    (mask_all true !! 0) ≫= (fun g => cell g 1 3) = Some true /\
    (mask_all true !! 1) ≫= (fun g => cell g 3 1) = Some true.
Proof.
  eexists. split; [vm_compute; reflexivity|]. split; reflexivity.
Qed.







(** Trained removal with greedy reinsertion: the step stops at the
    assertion of the last branch. *)
Lemma greedy_reinsertion_needs_greedy_removal_witness :
  forward (example_cfg "NNS" "greedy")
          (example_input None None (mask_all false)) example_rnd
  = Raise AssertionError.
Proof.
  pose proof (example_regular "NNS" "greedy" None None (mask_all false)
                (mask_all_ok false) (no_actions_ok _ _) (no_actions_ok _ _))
    as Hreg.
  destruct (greedy_reinsertion_needs_greedy_removal (FS := coarse_float_spec)
              (example_cfg "NNS" "greedy")
              (example_input None None (mask_all false)) example_rnd 2
              eq_refl)
    as [_ Hraise].
  exact (Hraise Hreg eq_refl).
Defined.

(** A batch of one instance of the tour 0 -> 1 -> 2 -> 4 -> 3 -> 0 whose
    previous action removed pair 1. *)
Definition singleton_input : step_input :=
  {| batch_size := 1;
     graph_size_plus1 := 5;
     solution := [tour5];
     x_in := [[(0, 0); (1, 0); (1, 1); (0, 1); (1 # 2, 1 # 2)]%Q];
     pre_action := Some [(1, 0, 0)];
     fixed_action := None;
     compater_removal := [[1; -2]]%Q;
     compater_reinsertion := fun _ _ => [replicate 5 [1; 2; 3; -1; 0]%Q];
     get_swap_mask := fun _ => [replicate 5 (replicate 5 false)] |}.

(** With a batch of one the tabu assignment indexes a vector with two
    indices and the step stops. *)
Lemma singleton_batch_loses_batch_dimension_witness :
  Shapes.action_removal_table_shape 1 2 4 = [2] /\
  Shapes.reinsertion_decoder_shape 1 5 4 = [5; 5] /\
  forward (example_cfg "NNS" "NNS") singleton_input example_rnd
  = Raise IndexError.
Proof.
  destruct (singleton_batch_loses_batch_dimension (F := coarse_float)
              (example_cfg "NNS" "NNS") singleton_input example_rnd 2
              ltac:(lia) eq_refl eq_refl)
    as (Hs1 & Hs2 & _ & _ & Htabu & _).
  split; [exact Hs1|]. split; [exact Hs2|].
  exact (proj2 (Htabu eq_refl eq_refl)).
Defined.

End Decoder.

(* ===================================================================== *)
(** ** Further facts about the decoder step *)
(* ===================================================================== *)

Module DecoderFacts.
Import Tour Decoder.

(** The call with another [pre_action], and with another [fixed_action]. *)
Definition with_pre_action (inp : step_input) (pa : option (list action))
  : step_input :=
  {| batch_size := batch_size inp;
     graph_size_plus1 := graph_size_plus1 inp;
     solution := solution inp;
     x_in := x_in inp;
     pre_action := pa;
     fixed_action := fixed_action inp;
     compater_removal := compater_removal inp;
     compater_reinsertion := compater_reinsertion inp;
     get_swap_mask := get_swap_mask inp |}.

Definition with_fixed_action (inp : step_input) (fa : option (list action))
  : step_input :=
  {| batch_size := batch_size inp;
     graph_size_plus1 := graph_size_plus1 inp;
     solution := solution inp;
     x_in := x_in inp;
     pre_action := pre_action inp;
     fixed_action := fa;
     compater_removal := compater_removal inp;
     compater_reinsertion := compater_reinsertion inp;
     get_swap_mask := get_swap_mask inp |}.

(** The tabu is part of the trained removal policy only: with the random
    or the greedy removal policy the step does not read [pre_action]. *)
Theorem untrained_removal_ignores_previous_action
    {F : Float} cfg inp rnd pa :
  TYPE_REMOVAL cfg <> "NNS" ->
  forward cfg (with_pre_action inp pa) rnd = forward cfg inp rnd.
Proof.
  intros HR. apply String.eqb_neq in HR.
  unfold forward, removal_tables_of. rewrite HR. reflexivity.
Qed.

(** Scoring the action a step has sampled: the call with that action as
    [fixed_action] returns the same action and the same log-likelihood,
    whatever the policies and the random numbers. *)
Theorem sampled_action_rescored_as_fixed_action
    {F : Float} cfg inp rnd rnd' actions ll :
  fixed_action inp = None ->
  forward cfg inp rnd = Ok (actions, ll) ->
  forward cfg (with_fixed_action inp (Some actions)) rnd' = Ok (actions, ll).
Proof.
  intros Hnone H.
  rewrite (forward_fixed_ignores_randomness cfg
             (with_fixed_action inp (Some actions)) rnd' rnd actions eq_refl).
  unfold forward in H |- *.
  change (removal_tables_of cfg (with_fixed_action inp (Some actions)) rnd)
    with (removal_tables_of cfg inp rnd).
  apply bind_Ok in H as (rt & Hrt & H). rewrite Hrt. cbn [mbind result_bind].
  apply bind_Ok in H as (ar & Har & H).
  apply bind_Ok in H as (ll1 & Hl1 & H).
  apply bind_Ok in H as (mask & Hmask & H).
  apply bind_Ok in H as (tabs & Htabs & H).
  apply bind_Ok in H as (flat & Hflat & H).
  apply bind_Ok in H as (pi & Hpi & H).
  apply bind_Ok in H as (act & Hact & H).
  apply bind_Ok in H as (ll2 & Hl2 & H).
  injection H as <- <-.
  unfold action_of in Hact. rewrite Hnone in Hact.
  case_decide as Hlen; [|done]. injection Hact as <-.
  destruct Hlen as [Hv Hp].
  destruct (actions_of_choices (graph_size_plus1 inp) (index_values ar) pi
              ltac:(lia)) as [Hfst Henc].
  set (acts := zip_with _ _ _) in *.
  assert (action_removal_of cfg (with_fixed_action inp (Some acts)) rnd rt
          = Ok (Column (index_values ar))) as ->.
  { unfold action_removal_of. simpl. by rewrite Hfst. }
  cbn [mbind result_bind].
  assert (selected_log_ll_action1 cfg rt (Column (index_values ar)) = Ok ll1)
    as ->.
  { revert Hl1. unfold selected_log_ll_action1.
    destruct (training cfg && String.eqb (TYPE_REMOVAL cfg) "NNS"); [|done].
    destruct (log_ll_removal rt) as [t|]; [|done].
    destruct ar as [v|v]; [done|]. by destruct t. }
  cbn [mbind result_bind index_values].
  change (get_swap_mask (with_fixed_action inp (Some acts))) with (get_swap_mask inp).
  change (batch_size (with_fixed_action inp (Some acts))) with (batch_size inp).
  change (graph_size_plus1 (with_fixed_action inp (Some acts)))
    with (graph_size_plus1 inp).
  rewrite Hmask. cbn [mbind result_bind].
  assert (reinsertion_tables_of cfg (with_fixed_action inp (Some acts))
            (Column (index_values ar)) mask = Ok tabs) as ->.
  { revert Htabs. unfold reinsertion_tables_of. cbn [index_values].
    destruct (String.eqb (TYPE_REINSERTION cfg) "NNS"); [done|].
    destruct (String.eqb (TYPE_REINSERTION cfg) "random"); [done|].
    destruct (String.eqb (TYPE_REMOVAL cfg) "greedy"); [|done].
    by destruct ar. }
  cbn [mbind result_bind].
  change (masked_table (with_fixed_action inp (Some acts)) tabs)
    with (masked_table inp tabs).
  rewrite Hflat. cbn [mbind result_bind].
  assert (pair_index_of cfg (with_fixed_action inp (Some acts)) rnd tabs
            (map softmax flat) = Ok pi) as ->.
  { unfold pair_index_of. simpl. by rewrite Henc. }
  cbn [mbind result_bind].
  assert (action_of (with_fixed_action inp (Some acts))
            (Column (index_values ar)) pi = Ok acts) as -> by done.
  cbn [mbind result_bind]. by rewrite Hl2.
Qed.

(* --------------------------------------------------------------------- *)
(** *** The random reinsertion policy *)

(** Number of feasible cells of an instance. *)
Definition feasible_cells (gm : list (list bool)) : nat :=
  length (filter (fun m => m = false) (concat gm)).

Lemma feasible_cells_pos gm : 0 < feasible_cells gm -> false ∈ concat gm.
Proof.
  unfold feasible_cells. intros Hk.
  destruct (filter _ (concat gm)) as [|x l] eqn:E; [simpl in Hk; lia|].
  assert (x ∈ filter (fun m => m = false) (concat gm)) as Hx
    by (rewrite E; by left).
  by apply list_elem_of_filter in Hx as [-> Hx].
Qed.

Lemma masked_ones_max (m : list bool) :
  false ∈ m -> row_max (masked_ones m) = 1%Q.
Proof.
  intros Hf.
  assert (1%Q ∈ masked_ones m) as H1.
  { unfold masked_ones. apply list_elem_of_fmap. by exists false. }
  assert (masked_ones m <> []) as Hne by (intros E; rewrite E in H1; inversion H1).
  pose proof (row_max_in _ Hne) as Hin.
  pose proof (row_max_ge _ _ H1) as Hge.
  unfold masked_ones in Hin, Hge |- *.
  apply list_elem_of_fmap in Hin as (b & Hb & _).
  destruct b; [|done]. rewrite Hb in Hge. unfold neg_huge in Hge. lra.
Qed.

Section RandomPolicy.
Context {F : Float} {FS : FloatSpec F}.

Lemma qsum_masked_ones (m : list bool) :
  (qsum (map (fun x => fexp (x - 1)) (masked_ones m))
   == inject_Z (Z.of_nat (length (filter (fun b => b = false) m))))%Q.
Proof.
  induction m as [|b m IH]; [done|].
  change (qsum (map (fun x => fexp (x - 1)) (masked_ones (b :: m))))
    with (fexp ((if b then neg_huge else 1) - 1)
          + qsum (map (fun x => fexp (x - 1)) (masked_ones m)))%Q.
  destruct b.
  - rewrite (filter_cons_False _ true m) by done.
    rewrite IH, (fexp_underflow (neg_huge - 1)); [lra|]. unfold neg_huge. lra.
  - rewrite (filter_cons_True _ false m) by done.
    assert (fexp (1 - 1) == 1)%Q as ->.
    { transitivity (fexp 0); [apply fexp_proper; lra | apply fexp_0]. }
    rewrite IH. simpl length. rewrite Nat2Z.inj_succ, <- Z.add_1_l, inject_Z_plus.
    change (inject_Z 1) with 1%Q. reflexivity.
Qed.

(** Softmax of such a row: uniform on the feasible cells, zero elsewhere. *)
Lemma softmax_masked_ones (m : list bool) (c : nat) (b : bool) :
  false ∈ m -> m !! c = Some b ->
  exists pr, softmax (masked_ones m) !! c = Some pr /\
    if b then (pr == 0)%Q
    else (pr == 1 / inject_Z (Z.of_nat (length (filter (fun b => b = false) m))))%Q.
Proof.
  intros Hf Hc. rewrite softmax_lookup. unfold exps.
  rewrite (masked_ones_max m Hf).
  pose proof (qsum_masked_ones m) as Hs.
  assert (masked_ones m !! c = Some (if b then neg_huge else 1%Q)) as ->.
  { unfold masked_ones. by rewrite list_lookup_fmap, Hc. }
  simpl. eexists. split; [reflexivity|].
  assert (0 < length (filter (fun b => b = false) m)) as Hk.
  { destruct (filter _ m) eqn:E; [|simpl; lia].
    assert (false ∈ filter (fun b => b = false) m) as Hin
      by (by apply list_elem_of_filter).
    rewrite E in Hin. inversion Hin. }
  assert (0 < inject_Z (Z.of_nat (length (filter (fun b => b = false) m))))%Q
    as Hpos.
  { change 0%Q with (inject_Z 0). rewrite <- Zlt_Qlt. lia. }
  destruct b.
  - rewrite (fexp_underflow (neg_huge - 1)) by (unfold neg_huge; lra).
    rewrite Hs. field. lra.
  - assert (fexp (1 - 1) == 1)%Q as ->.
    { transitivity (fexp 0); [apply fexp_proper; lra | apply fexp_0]. }
    rewrite Hs. reflexivity.
Qed.

(** The random reinsertion policy is uniform over the feasible cells: in an
    instance with [k >= 1] feasible cells every feasible cell has
    probability [1/k] and every infeasible cell probability 0. *)
Theorem random_reinsertion_uniform_over_feasible_cells
    cfg inp ar mask b gm :
  TYPE_REINSERTION cfg = "random" ->
  expand_mask (batch_size inp) (graph_size_plus1 inp)
    (get_swap_mask inp (map S (index_values ar))) = Ok mask ->
  mask !! b = Some gm ->
  0 < feasible_cells gm ->
  exists probs row,
    probs_reinsertion_of cfg inp ar = Ok probs /\
    probs !! b = Some row /\
    forall p d (m : bool), cell gm p d = Some m ->
      exists pr, row !! (p * graph_size_plus1 inp + d) = Some pr /\
        if m then (pr == 0)%Q
        else (pr == 1 / inject_Z (Z.of_nat (feasible_cells gm)))%Q.
Proof.
  intros HI Hmask Hb Hk.
  pose proof (expand_mask_shape _ _ _ _ Hmask) as Hok.
  destruct (random_reinsertion_rows cfg inp ar mask HI Hok)
    as (tabs & Ht & _ & Hf).
  unfold probs_reinsertion_of. rewrite Hmask. cbn [mbind result_bind].
  rewrite Ht. cbn [mbind result_bind].
  rewrite Hf. cbn [mbind result_bind].
  exists (map softmax (map (fun gm => masked_ones (concat gm)) mask)),
         (softmax (masked_ones (concat gm))).
  split; [done|]. split.
  { by rewrite !list_lookup_fmap, Hb. }
  intros p d m Hc.
  destruct Hok as [_ Hg]. rewrite Forall_forall in Hg.
  destruct (Hg gm ltac:(by eapply list_elem_of_lookup_2)) as [Hgl Hgr].
  destruct (cell_lt gm (graph_size_plus1 inp) p d m (conj Hgl Hgr) Hc)
    as [Hp Hd].
  apply softmax_masked_ones.
  - by apply feasible_cells_pos.
  - by rewrite (concat_lookup_cell gm (graph_size_plus1 inp) p d Hgr Hd).
Qed.

(** A step with the random reinsertion policy returns, for every instance
    that has a feasible cell, a feasible cell. *)
Theorem random_reinsertion_selects_feasible_cell
    cfg inp rnd actions ll mask b gm a p d :
  TYPE_REINSERTION cfg = "random" -> fixed_action inp = None ->
  Forall (fun u => (0 <= u)%Q) (u_reinsertion rnd) ->
  forward cfg inp rnd = Ok (actions, ll) ->
  expand_mask (batch_size inp) (graph_size_plus1 inp)
    (get_swap_mask inp (map S (map act_pair actions))) = Ok mask ->
  mask !! b = Some gm ->
  0 < feasible_cells gm ->
  actions !! b = Some (a, p, d) ->
  cell gm p d = Some false.
Proof.
  intros HI Hnone Hu H Hmask Hb Hk Ha.
  apply forward_inv in H
    as (rt & ar & ll1 & mask' & tabs & flat & pi & ll2
        & _ & _ & _ & Hmask' & Htabs & Hflat & Hpi & Hact & _).
  unfold action_of in Hact. rewrite Hnone in Hact.
  case_decide as Hlen; [|done]. injection Hact as <-.
  destruct Hlen as [Hv Hp].
  destruct (actions_of_choices (graph_size_plus1 inp) (index_values ar) pi
              ltac:(lia)) as [Hfst _].
  rewrite Hfst, Hmask' in Hmask. injection Hmask as ->.
  pose proof (expand_mask_shape _ _ _ _ Hmask') as Hshape.
  destruct (random_reinsertion_rows cfg inp ar mask HI Hshape)
    as (tabs' & Ht' & _ & Hf').
  rewrite Ht' in Htabs. injection Htabs as ->.
  rewrite Hf' in Hflat. injection Hflat as <-.
  apply lookup_zip_with_Some in Ha as (a' & c & [= -> -> ->] & Har' & Hc).
  unfold pair_index_of in Hpi. rewrite Hnone, HI in Hpi. simpl in Hpi.
  destruct (sample_rows_lookup _ _ _ Hpi) as [_ Hrows].
  destruct (Hrows b c Hc) as (row & u & Hrow & Hub & Hm).
  rewrite !list_lookup_fmap, Hb in Hrow. injection Hrow as <-.
  rewrite Forall_forall in Hu.
  destruct (multinomial_sound _ u c
              (Hu u ltac:(by eapply list_elem_of_lookup_2)) Hm)
    as (x & Hx & Hpos).
  destruct Hshape as [_ Hg]. rewrite Forall_forall in Hg.
  destruct (Hg gm ltac:(by eapply list_elem_of_lookup_2)) as [Hgl Hgr].
  assert (0 < graph_size_plus1 inp) as HL.
  { destruct (graph_size_plus1 inp); [|lia].
    destruct gm; [|done]. unfold feasible_cells in Hk. simpl in Hk. lia. }
  assert (is_Some (concat gm !! c)) as [m Hm'].
  { apply lookup_lt_is_Some_2. apply lookup_lt_Some in Hx.
    unfold masked_ones in Hx. by rewrite length_softmax, length_map in Hx. }
  destruct (softmax_masked_ones (concat gm) c m (feasible_cells_pos gm Hk) Hm')
    as (pr & Hpr & Hval).
  rewrite Hx in Hpr. injection Hpr as <-.
  destruct m; [lra|].
  by rewrite <- (flat_index_cell gm (graph_size_plus1 inp) c HL Hgr).
Qed.

End RandomPolicy.

(* --------------------------------------------------------------------- *)
(** *** Concrete calls *)

Definition other_rnd : randomness :=
  {| rand_removal := [[1 # 5; 4 # 5]; [2 # 3; 1 # 3]]%Q;
     u_removal := [1 # 10; 3 # 10]%Q;
     u_reinsertion := [7 # 10; 1 # 10]%Q;
     eps_removal := [1 # 2; 1 # 30]%Q;
     eps_reinsertion := [1 # 40; 1 # 2]%Q |}.

(** Random removal: the step is the same with and without a previous
    action. *)
Lemma untrained_removal_ignores_previous_action_witness :
  forward (example_cfg "random" "NNS")
    (with_pre_action (example_input None None (mask_all false))
       (Some [(1, 0, 0); (0, 0, 0)])) example_rnd
  = forward (example_cfg "random" "NNS")
      (example_input None None (mask_all false)) example_rnd.
Proof.
  apply (untrained_removal_ignores_previous_action
           (example_cfg "random" "NNS")
           (example_input None None (mask_all false)) example_rnd
           (Some [(1, 0, 0); (0, 0, 0)])).
  discriminate.
Defined.

(** The action sampled with one set of random numbers, scored again with
    another. *)
Lemma sampled_action_rescored_as_fixed_action_witness :
  exists ll,
    forward (example_cfg "NNS" "NNS")
      (with_fixed_action (example_input None None (mask_all false))
         (Some [(0, 1, 2); (1, 3, 1)])) other_rnd
    = Ok ([(0, 1, 2); (1, 3, 1)], ll).
Proof.
  eexists.
  apply (sampled_action_rescored_as_fixed_action
           (example_cfg "NNS" "NNS")
           (example_input None None (mask_all false)) example_rnd other_rnd).
  - reflexivity.
  - vm_compute. reflexivity.
Defined.

(** All 25 cells feasible: each has probability 1/25. *)
Lemma random_reinsertion_uniform_over_feasible_cells_witness :
  feasible_cells (replicate 5 (replicate 5 false)) = 25 /\
  exists probs row pr,
    probs_reinsertion_of (example_cfg "NNS" "random")
      (example_input None None (mask_all false)) (Column [0; 1]) = Ok probs /\
    probs !! 0 = Some row /\ row !! 13 = Some pr /\
    (pr == 1 / inject_Z
               (Z.of_nat (feasible_cells (replicate 5 (replicate 5 false)))))%Q.
Proof.
  split; [reflexivity|].
  destruct (random_reinsertion_uniform_over_feasible_cells
              (FS := coarse_float_spec) (example_cfg "NNS" "random")
              (example_input None None (mask_all false)) (Column [0; 1])
              (mask_all false) 0 (replicate 5 (replicate 5 false))
              eq_refl eq_refl eq_refl ltac:(vm_compute; lia))
    as (probs & row & Hp & Hrow & Hcells).
  destruct (Hcells 2 3 false eq_refl) as (pr & Hpr & Hval).
  exists probs, row, pr.
  split; [exact Hp|]. split; [exact Hrow|]. split; [exact Hpr|exact Hval].
Defined.

(** Only the cell (2, 3) is feasible: the random policy inserts there. *)
Lemma random_reinsertion_selects_feasible_cell_witness :
  exists ll,
    forward (example_cfg "NNS" "random")
      (example_input None None mask_one_cell) example_rnd
    = Ok ([(0, 2, 3); (1, 2, 3)], ll) /\
    (mask_one_cell !! 0) ≫= (fun g => cell g 2 3) = Some false.
Proof.
  assert (Forall (fun u => (0 <= u)%Q) (u_reinsertion example_rnd)) as Hu.
  { repeat constructor; simpl; lra. }
  eexists. split; [vm_compute; reflexivity|].
  exact (random_reinsertion_selects_feasible_cell
           (FS := coarse_float_spec) (example_cfg "NNS" "random")
           (example_input None None mask_one_cell) example_rnd
           [(0, 2, 3); (1, 2, 3)] _ mask_one_cell 0 _ 0 2 3
           eq_refl eq_refl Hu ltac:(vm_compute; reflexivity) eq_refl eq_refl
           ltac:(vm_compute; lia) eq_refl).
Defined.

End DecoderFacts.
